(** * A shallow embedding of the rules engine of [src/app/page.tsx]

    The game is a React component whose state lives in [useState] hooks.
    Each handler ([movePuyo], [rotatePuyo], [placePuyo], [holdPuyo]) reads
    the current hook values and schedules new ones; here a handler is a
    function from the state record to the state record.  Calls to
    [generatePuyoPair] (which draws colours with [Math.random]) are
    replaced by an explicit argument carrying the pair it returned.
    Sound and the page layout are left out; the timers and the
    rendering helpers come in further below. *)

From Stdlib Require Import ZArith Lia.
From stdpp Require Import base list list_numbers strings.

Open Scope Z_scope.

(** ** Types and constants *)

Inductive Color := red | green | blue | yellow | purple.

#[global] Instance Color_eq_dec : EqDecision Color.
Proof. solve_decision. Defined.

(** [PuyoColor = 'red' | ... | null]: [None] is [null]. *)
Abbreviation PuyoColor := (option Color).

(** [Grid = PuyoColor[][]], row-major: [grid[y][x]]. *)
Abbreviation Grid := (list (list PuyoColor)).

Inductive GameState := title | active | over | pause.

Definition GRID_ROWS : Z := 12.
Definition GRID_COLS : Z := 6.

Definition createEmptyGrid : Grid :=
  repeat (repeat None (Z.to_nat GRID_COLS)) (Z.to_nat GRID_ROWS).

Record PuyoPair := mkPuyoPair {
  color1 : PuyoColor;
  color2 : PuyoColor;
  x : Z;
  y : Z;
  rotation : Z
}.

(** ** Reading and writing cells *)

(** [grid[y][x]] with JavaScript indexing: [None] is [undefined]
    (negative or too large index). *)
Definition cell_at (g : Grid) (yy xx : Z) : option PuyoColor :=
  if (0 <=? yy) && (0 <=? xx)
  then g !! Z.to_nat yy ≫= fun row => row !! Z.to_nat xx
  else None.

(** JavaScript truthiness of a cell read: only a colour is truthy. *)
Definition truthy (c : option PuyoColor) : bool :=
  match c with Some (Some _) => true | _ => false end.

(** [newGrid[y][x] = v] on an in-range cell.  Out of range the source
    throws (missing row) or grows the row; here nothing is written.  The
    writes of [placePuyo] happen on in-range cells, and so do those of
    [removeMatchedPuyos] on the positions [findMatches] reports;
    [removeMatchedPuyos_js] below gives the source's behaviour on every
    position. *)
Definition set_cell (g : Grid) (yy xx : Z) (v : PuyoColor) : Grid :=
  if (0 <=? yy) && (0 <=? xx)
  then alter (fun row => <[Z.to_nat xx := v]> row) (Z.to_nat yy) g
  else g.

(** ** findMatches *)

Definition directions : list (Z * Z) := [(0, 1); (1, 0); (0, -1); (-1, 0)].

Definition pos_eqb (p q : Z * Z) : bool :=
  (fst p =? fst q) && (snd p =? snd q).

(** [visited.has(`${ny},${nx}`)]: the string key is injective on integer
    pairs, so the set is a list of pairs. *)
Definition visited_has (visited : list (Z * Z)) (p : Z * Z) : bool :=
  existsb (pos_eqb p) visited.

(** One iteration of [for (const [dy, dx] of directions)]. *)
Definition scan_dir (g : Grid) (color : PuyoColor) (visited : list (Z * Z))
    (cy cx : Z) (acc : list (Z * Z) * list (Z * Z)) (d : Z * Z)
    : list (Z * Z) * list (Z * Z) :=
  let '(group, queue) := acc in
  let ny := cy + fst d in
  let nx := cx + snd d in
  if (0 <=? ny) && (ny <? GRID_ROWS) && (0 <=? nx) && (nx <? GRID_COLS)
     && bool_decide (cell_at g ny nx = Some color)
     && negb (visited_has visited (ny, nx))
  then (group ++ [(ny, nx)], queue ++ [(ny, nx)])
  else (group, queue).

(** The [while (queue.length > 0)] loop.  The source loop always ends (a
    cell is enqueued only while it is unvisited, and visited once
    dequeued); [fuel] bounds the number of iterations and [None] means it
    ran out, which the theorems below rule out on their inputs. *)
Fixpoint bfs (fuel : nat) (g : Grid) (color : PuyoColor)
    (queue visited group : list (Z * Z)) : option (list (Z * Z)) :=
  match queue with
  | [] => Some group
  | (cy, cx) :: rest =>
      match fuel with
      | O => None
      | S f =>
          let visited' := (cy, cx) :: visited in
          let '(group', queue') :=
            fold_left (scan_dir g color visited' cy cx) directions (group, rest) in
          bfs f g color queue' visited' group'
      end
  end.

Definition bfs_fuel : nat := Nat.pow 2 16.

(** The positions visited by the two nested [for] loops, in order. *)
Definition scan_order : list (Z * Z) :=
  flat_map (fun yy => map (fun xx => (yy, xx)) (seqZ 0 GRID_COLS)) (seqZ 0 GRID_ROWS).

(** The body of the nested loops at [(y, x)]: a fresh [group], [queue]
    and [visited] per start cell. *)
Definition match_from (g : Grid) (matches : list (Z * Z)) (p : Z * Z)
    : option (list (Z * Z)) :=
  let '(yy, xx) := p in
  match cell_at g yy xx with
  | Some (Some c) =>
      group ← bfs bfs_fuel g (Some c) [(yy, xx)] [] [(yy, xx)];
      if (4 <=? length group)%nat then Some (matches ++ group) else Some matches
  | _ => Some matches
  end.

Fixpoint scan_cells (g : Grid) (cells : list (Z * Z)) (matches : list (Z * Z))
    : option (list (Z * Z)) :=
  match cells with
  | [] => Some matches
  | p :: rest => m ← match_from g matches p; scan_cells g rest m
  end.

Definition findMatches (g : Grid) : option (list (Z * Z)) :=
  scan_cells g scan_order [].

(** ** removeMatchedPuyos *)

Definition removeMatchedPuyos (g : Grid) (matches : list (Z * Z)) : Grid :=
  fold_left (fun gr '(yy, xx) => set_cell gr yy xx None) matches g.

(** [removeMatchedPuyos] on every list of positions, with the JavaScript
    semantics of [newGrid[y][x] = null] off the board: [newGrid[y]] is
    [undefined] for a row that does not exist (negative or past the last
    row) and the assignment throws ([None]; [forEach] stops there); a
    column past the end of its row lengthens the row, the skipped indices
    becoming holes; a negative column names an ordinary property, not an
    element, so the cells are unchanged.  A row is a list of array slots. *)
Inductive Slot := Hole | Val (v : PuyoColor).

Definition js_assign (row : list Slot) (xx : Z) (v : PuyoColor) : list Slot :=
  if xx <? 0 then row
  else if (Z.to_nat xx <? length row)%nat then <[Z.to_nat xx := Val v]> row
  else row ++ repeat Hole (Z.to_nat xx - length row) ++ [Val v].

Definition js_set_cell (g : list (list Slot)) (yy xx : Z) (v : PuyoColor)
    : option (list (list Slot)) :=
  if yy <? 0 then None
  else match g !! Z.to_nat yy with
       | None => None
       | Some row => Some (<[Z.to_nat yy := js_assign row xx v]> g)
       end.

(** [grid.map(row => [...row])]: a copy whose slots all hold values. *)
Definition js_of_grid (g : Grid) : list (list Slot) := (fun row : list PuyoColor => Val <$> row) <$> g.

Definition removeMatchedPuyos_js (g : Grid) (matches : list (Z * Z))
    : option (list (list Slot)) :=
  fold_left (fun acc '(yy, xx) => gr ← acc; js_set_cell gr yy xx None) matches
    (Some (js_of_grid g)).

(** ** applyGravity

    Rows and columns are in range throughout ([0 <= row <= emptyRow <
    height]), so indices are [nat].  [emptyRow--] after the cell of row 0
    is never read again, so the truncation of [0 - 1] at [0] is harmless. *)

Definition get_nat (g : Grid) (r c : nat) : option PuyoColor :=
  g !! r ≫= fun row => row !! c.

Definition set_nat (g : Grid) (r c : nat) (v : PuyoColor) : Grid :=
  alter (fun row => <[c := v]> row) r g.

(** The inner [for (let row = height - 1; row >= 0; row--)] loop: [k] rows
    remain, the next one is row [k - 1]. *)
Fixpoint gravity_col (k : nat) (col emptyRow : nat) (g : Grid) : Grid :=
  match k with
  | O => g
  | S row =>
      match get_nat g row col with
      | Some None => gravity_col row col emptyRow g
      | v =>
          let g' :=
            if decide (row = emptyRow) then g
            else set_nat (set_nat g emptyRow col (default None v)) row col None in
          gravity_col row col (emptyRow - 1)%nat g'
      end
  end.

(** [width = newGrid[0].length] (the source throws on a grid without rows;
    here such a grid is returned as it is). *)
Definition applyGravity (g : Grid) : Grid :=
  let width := match g with row0 :: _ => length row0 | [] => O end in
  let height := length g in
  fold_left (fun gr col => gravity_col height col (height - 1)%nat gr) (seq 0 width) g.

(** ** Session state *)

Record State := mkState {
  grid : Grid;
  gameState : GameState;
  score : Z;
  currentPuyo : option PuyoPair;
  nextPuyos : list PuyoPair;
  chainCounter : Z;
  isPaused : bool;
  heldPuyo : option PuyoPair;
  canHold : bool;
  isChaining : bool
}.

Definition set_grid (s : State) (g : Grid) : State :=
  mkState g (gameState s) (score s) (currentPuyo s) (nextPuyos s) (chainCounter s)
    (isPaused s) (heldPuyo s) (canHold s) (isChaining s).
Definition set_gameState (s : State) (gs : GameState) : State :=
  mkState (grid s) gs (score s) (currentPuyo s) (nextPuyos s) (chainCounter s)
    (isPaused s) (heldPuyo s) (canHold s) (isChaining s).
Definition set_score (s : State) (n : Z) : State :=
  mkState (grid s) (gameState s) n (currentPuyo s) (nextPuyos s) (chainCounter s)
    (isPaused s) (heldPuyo s) (canHold s) (isChaining s).
Definition set_currentPuyo (s : State) (p : option PuyoPair) : State :=
  mkState (grid s) (gameState s) (score s) p (nextPuyos s) (chainCounter s)
    (isPaused s) (heldPuyo s) (canHold s) (isChaining s).
Definition set_nextPuyos (s : State) (q : list PuyoPair) : State :=
  mkState (grid s) (gameState s) (score s) (currentPuyo s) q (chainCounter s)
    (isPaused s) (heldPuyo s) (canHold s) (isChaining s).
Definition set_chainCounter (s : State) (n : Z) : State :=
  mkState (grid s) (gameState s) (score s) (currentPuyo s) (nextPuyos s) n
    (isPaused s) (heldPuyo s) (canHold s) (isChaining s).
Definition set_heldPuyo (s : State) (p : option PuyoPair) : State :=
  mkState (grid s) (gameState s) (score s) (currentPuyo s) (nextPuyos s) (chainCounter s)
    (isPaused s) p (canHold s) (isChaining s).
Definition set_canHold (s : State) (b : bool) : State :=
  mkState (grid s) (gameState s) (score s) (currentPuyo s) (nextPuyos s) (chainCounter s)
    (isPaused s) (heldPuyo s) b (isChaining s).
Definition set_isChaining (s : State) (b : bool) : State :=
  mkState (grid s) (gameState s) (score s) (currentPuyo s) (nextPuyos s) (chainCounter s)
    (isPaused s) (heldPuyo s) (canHold s) b.

Definition is_active (gs : GameState) : bool :=
  match gs with active => true | _ => false end.

(** [generatePuyoPair]: the two colours are the random draws. *)
Definition generatePuyoPair (c1 c2 : Color) : PuyoPair :=
  mkPuyoPair (Some c1) (Some c2) 2 0 0.

(** [startGame]; [p1 .. p4] are the four pairs of [generateNextPuyos]. *)
Definition startGame (s : State) (p1 p2 p3 p4 : PuyoPair) : State :=
  mkState createEmptyGrid active 0 (Some p1) [p2; p3; p4] 0 false None true
    (isChaining s).

(** ** Piece geometry and validity *)

Definition getSecondPuyoPosition (xx yy r : Z) : Z * Z :=
  if r =? 0 then (xx, yy - 1)
  else if r =? 1 then (xx + 1, yy)
  else if r =? 2 then (xx, yy + 1)
  else if r =? 3 then (xx - 1, yy)
  else (xx, yy).

Definition in_bounds (xx yy : Z) : bool :=
  (0 <=? xx) && (xx <? GRID_COLS) && (0 <=? yy) && (yy <? GRID_ROWS).

Definition isValidMove (g : Grid) (p : PuyoPair) : bool :=
  let '(x2, y2) := getSecondPuyoPosition (x p) (y p) (rotation p) in
  in_bounds (x p) (y p) && in_bounds x2 y2
  && negb (truthy (cell_at g (y p) (x p))) && negb (truthy (cell_at g y2 x2)).

Definition with_pos (p : PuyoPair) (xx yy r : Z) : PuyoPair :=
  mkPuyoPair (color1 p) (color2 p) xx yy r.

(** ** Handlers *)

(** [placePuyo]: write the pair into the grid, apply gravity, then take
    the next pair from the queue; [fresh] is the pair returned by the
    [generatePuyoPair()] call that refills the queue.  [nextPuyos[0]] of an
    empty queue is [undefined], which the component treats like [null].
    The [animateChain(newGrid)] call is not awaited: its first passes run
    after this handler returns, and are modelled by [animateChain] below,
    run on the state this handler produces. *)
(** The bounds check of [placePuyo] on both cells of the pair. *)
Definition lock_in_bounds (p : PuyoPair) : bool :=
  let '(x2, y2) := getSecondPuyoPosition (x p) (y p) (rotation p) in
  in_bounds (x p) (y p) && in_bounds x2 y2.

Definition placePuyo (s : State) (fresh : PuyoPair) : State :=
  match currentPuyo s with
  | None => s
  | Some cur =>
      if negb (lock_in_bounds cur) then set_gameState s over
      else
        let '(x2, y2) := getSecondPuyoPosition (x cur) (y cur) (rotation cur) in
        let g1 := set_cell (set_cell (grid s) (y cur) (x cur) (color1 cur)) y2 x2 (color2 cur) in
        let g2 := applyGravity g1 in
        let s1 := set_canHold (set_currentPuyo (set_grid s g2) None) true in
        set_nextPuyos (set_currentPuyo s1 (head (nextPuyos s)))
          (tail (nextPuyos s) ++ [fresh])
  end.

Inductive MoveDir := MoveLeft | MoveRight | MoveDown.
Inductive RotDir := RotLeft | RotRight.

(** The guard shared by [movePuyo], [rotatePuyo]:
    [if (!currentPuyo || gameState !== 'active' || isPaused) return]. *)
Definition can_act (s : State) : bool :=
  is_active (gameState s) && negb (isPaused s).

Definition move_target (p : PuyoPair) (d : MoveDir) : PuyoPair :=
  match d with
  | MoveLeft => with_pos p (x p - 1) (y p) (rotation p)
  | MoveRight => with_pos p (x p + 1) (y p) (rotation p)
  | MoveDown => with_pos p (x p) (y p + 1) (rotation p)
  end.

Definition movePuyo (s : State) (d : MoveDir) (fresh : PuyoPair) : State :=
  match currentPuyo s with
  | None => s
  | Some cur =>
      if negb (can_act s) then s else
      let np := move_target cur d in
      if isValidMove (grid s) np then set_currentPuyo s (Some np)
      else match d with
           | MoveDown => placePuyo s fresh
           | _ => s
           end
  end.

(** [movePuyo] is declared [=> void]: the value a call returns. *)
Definition movePuyo_call (s : State) (d : MoveDir) (fresh : PuyoPair) : unit * State :=
  (tt, movePuyo s d fresh).

(** [(rotation + (direction === 'left' ? -1 : 1) + 4) % 4]; JavaScript's
    [%] truncates, as [Z.rem] does. *)
Definition rotate_step (r : Z) (d : RotDir) : Z :=
  Z.rem (r + (match d with RotLeft => -1 | RotRight => 1 end) + 4) 4.

Definition rotatePuyo (s : State) (d : RotDir) : State :=
  match currentPuyo s with
  | None => s
  | Some cur =>
      if negb (can_act s) then s else
      let np := with_pos cur (x cur) (y cur) (rotate_step (rotation cur) d) in
      if isValidMove (grid s) np then set_currentPuyo s (Some np) else s
  end.

Definition rotatePuyo_call (s : State) (d : RotDir) : unit * State :=
  (tt, rotatePuyo s d).

(** [holdPuyo]; [fresh] is the pair [generatePuyoPair()] returns on the
    branch that draws from the queue. *)
Definition holdPuyo (s : State) (fresh : PuyoPair) : State :=
  match currentPuyo s with
  | None => s
  | Some cur =>
      if negb (canHold s) || negb (is_active (gameState s)) || isPaused s then s else
      let s1 :=
        match heldPuyo s with
        | Some h => set_heldPuyo (set_currentPuyo s (Some (with_pos h 2 0 0))) (Some cur)
        | None =>
            set_nextPuyos (set_currentPuyo (set_heldPuyo s (Some cur)) (head (nextPuyos s)))
              (tail (nextPuyos s) ++ [fresh])
        end in
      set_canHold s1 false
  end.

(** ** animateChain

    The recursive [animateChain(grid, chainCount)], with its state effects
    in order and the [await]ed delays dropped.  The recursion ends because
    every pass empties at least four cells; [fuel] bounds the number of
    passes and [None] means it ran out (or [findMatches] did). *)
Fixpoint animateChain (fuel : nat) (g : Grid) (chainCount : Z) (s : State)
    : option State :=
  match fuel with
  | O => None
  | S f =>
      let s0 := set_isChaining s true in
      matched ← findMatches g;
      if (0 <? length matched)%nat then
        let s1 := set_grid s0 g in
        let newGrid := removeMatchedPuyos g matched in
        let s2 := set_chainCounter
                    (set_score (set_grid s1 newGrid)
                       (score s1 + Z.of_nat (length matched) * 10 * (chainCount + 1)))
                    (chainCount + 1) in
        let gridAfterGravity := applyGravity newGrid in
        animateChain f gridAfterGravity (chainCount + 1) (set_grid s2 gridAfterGravity)
      else Some (set_isChaining (set_chainCounter s0 0) false)
  end.

(** The number of passes is at most one more than the number of cells. *)
Definition chain_fuel (g : Grid) : nat := S (sum_list_with length g).

(** ** Concrete boards and states *)

(** A 12x6 board whose only non-empty row is the bottom one. *)
Definition bottom_board (row : list PuyoColor) : Grid :=
  repeat (repeat None 6) 11 ++ [row].

Definition R : PuyoColor := Some red.
Definition G : PuyoColor := Some green.

Definition board_run4 : Grid := bottom_board [R; R; R; R; None; None].
Definition board_run6 : Grid := bottom_board [R; R; R; R; R; R].

Definition state_of_grid (g : Grid) : State :=
  mkState g active 0 None [] 0 false None true false.

(** Column 2 filled to the top with alternating colours (no group of
    four), one piece lying flat at the bottom left about to lock, and a
    pair waiting in the queue. *)
Definition col2_row (c : PuyoColor) : list PuyoColor := [None; None; c; None; None; None].

Definition column2_full : Grid :=
  [col2_row R; col2_row G; col2_row R; col2_row G; col2_row R; col2_row G;
   col2_row R; col2_row G; col2_row R; col2_row G; col2_row R; col2_row G].

Definition locking_piece : PuyoPair := mkPuyoPair (Some blue) (Some yellow) 0 11 1.

Definition state_full_column : State :=
  mkState column2_full active 0 (Some locking_piece)
    [generatePuyoPair red green; generatePuyoPair blue blue] 0 false None true false.

(** The first pair of a game started on an empty board. *)
Definition spawn_pair : PuyoPair := generatePuyoPair red red.

Definition state_spawned : State :=
  startGame (state_of_grid createEmptyGrid) spawn_pair spawn_pair spawn_pair spawn_pair.

(** A pair lying in the middle of an empty board, and one against the
    left wall. *)
Definition free_pair : PuyoPair := mkPuyoPair R G 2 5 0.
Definition wall_pair : PuyoPair := mkPuyoPair R G 0 5 0.

Definition state_with (p : PuyoPair) : State :=
  mkState createEmptyGrid active 0 (Some p) [spawn_pair; spawn_pair; spawn_pair]
    0 false None true false.

Definition rotate_right4 (s : State) : State :=
  rotatePuyo (rotatePuyo (rotatePuyo (rotatePuyo s RotRight) RotRight) RotRight) RotRight.

(** Two cells of column 0 and one of column 2 above empty rows. *)
Definition board_floating : Grid :=
  repeat (repeat None 6) 3 ++ [[R; None; None; None; None; None]]
  ++ repeat (repeat None 6) 3 ++ [[G; None; G; None; None; None]]
  ++ repeat (repeat None 6) 4.

(** ** Views of a grid used in the statements *)

Definition occupied (c : PuyoColor) : bool :=
  match c with Some _ => true | None => false end.

(** Column [c] of a grid, top to bottom. *)
Definition column (g : Grid) (c : nat) : list PuyoColor :=
  (fun row => default None (row !! c)) <$> g.

(** A column after a stable compaction towards its end (the bottom): the
    colours in their order, preceded by as many empty cells as were
    removed from between them. *)
Definition compact (l : list PuyoColor) : list PuyoColor :=
  repeat None (length l - length (List.filter occupied l)) ++ List.filter occupied l.

(** Every row has [w] cells. *)
Definition rectangular (g : Grid) (w : nat) : Prop :=
  Forall (fun row => length row = w) g.

Definition count_nonempty (g : Grid) : nat :=
  sum_list_with (fun row => length (List.filter occupied row)) g.

(** A position [(y, x)] names a cell of the grid. *)
Definition in_grid (g : Grid) (p : Z * Z) : Prop :=
  is_Some (cell_at g (fst p) (snd p)).

(** The inner loop of [applyGravity] read on the column it walks: the
    same steps as [gravity_col], on a list of cells. *)
Fixpoint gravity_col_list (k : nat) (emptyRow : nat) (l : list PuyoColor)
    : list PuyoColor :=
  match k with
  | O => l
  | S row =>
      match l !! row with
      | Some None => gravity_col_list row emptyRow l
      | v =>
          let l' :=
            if decide (row = emptyRow) then l
            else <[row := None]> (<[emptyRow := default None v]> l) in
          gravity_col_list row (emptyRow - 1)%nat l'
      end
  end.

(** ** Rendering helpers *)

(** The digits of a natural number, most significant first, as the
    template literal [`${n}`] prints them; [fuel] bounds the number of
    digits. *)
Fixpoint digits (fuel n : nat) (acc : string) : string :=
  match fuel with
  | O => acc
  | S f =>
      let acc' := String (Ascii.ascii_of_nat (48 + n mod 10)) acc in
      if (n <? 10)%nat then acc' else digits f (n / 10) acc'
  end.

Definition string_of_Z (z : Z) : string :=
  if z <? 0 then String.append "-" (digits (S (Z.to_nat (- z))) (Z.to_nat (- z)) "")
  else digits (S (Z.to_nat z)) (Z.to_nat z) "".

(** A CSS length of [z] pixels, [`${z}px`]. *)
Definition px (z : Z) : string := String.append (string_of_Z z) "px".

(** The [{ top, left }] object of [getSecondPuyoStyle]. *)
Record CSSOffset := mkOffset { style_top : string; style_left : string }.

Definition getSecondPuyoStyle (r : Z) : CSSOffset :=
  if r =? 0 then mkOffset "-32px" "0px"
  else if r =? 1 then mkOffset "0px" "32px"
  else if r =? 2 then mkOffset "32px" "0px"
  else if r =? 3 then mkOffset "0px" "-32px"
  else mkOffset "-32px" "0px".

Definition getPuyoColorClass (c : PuyoColor) : string :=
  match c with
  | Some red => "bg-red-500"
  | Some green => "bg-green-500"
  | Some blue => "bg-blue-500"
  | Some yellow => "bg-yellow-500"
  | Some purple => "bg-purple-500"
  | None => "bg-gray-200"
  end.

(** ** Keyboard input *)

(** [String.prototype.toLowerCase] on ASCII: [A..Z] become [a..z], every
    other byte is kept.  [e.key] is taken as an ASCII string; no other
    character lowers to one of the key names the handler tests. *)
Definition lower_ascii (a : Ascii.ascii) : Ascii.ascii :=
  let n := Ascii.nat_of_ascii a in
  if (65 <=? n)%nat && (n <=? 90)%nat then Ascii.ascii_of_nat (n + 32) else a.

Fixpoint toLowerCase (s : string) : string :=
  match s with
  | EmptyString => EmptyString
  | String a rest => String (lower_ascii a) (toLowerCase rest)
  end.

Definition set_isPaused (s : State) (b : bool) : State :=
  mkState (grid s) (gameState s) (score s) (currentPuyo s) (nextPuyos s) (chainCounter s)
    b (heldPuyo s) (canHold s) (isChaining s).

(** ** The component as a whole

    A world holds the hooks, the grid objects the component has created
    (by identity, [objs !! i] is object [i]), the object the [grid] hook
    holds ([gridRef]; [grid ui] is its value), the chain passes waiting
    on a timer, and [highScore].  Objects matter because [placePuyo]
    copies the outer array of the [grid] hook ([[...grid]]) and then
    writes into its rows, which that copy shares with the hook's object:
    a chain pass still holding that object sees the two cells.  No other
    two objects share a row ([applyGravity] and [removeMatchedPuyos] copy
    every row), so a store of whole grids by object is exact.  Sound,
    [fallSpeed], the chain counter display and its timeout are left out:
    they change no value read here. *)

(** Where a running [animateChain(grid, chainCount)] waits: after
    [setGrid(grid)], after the removal, after gravity.  Grids are object
    numbers. *)
Inductive ChainStep :=
  | AfterShow (g : nat) (matched : list (Z * Z)) (chainCount : Z)
  | AfterRemove (newGrid : nat) (chainCount : Z)
  | AfterGravity (gridAfterGravity : nat) (chainCount : Z).

Record World := mkWorld {
  ui : State;
  objs : list Grid;
  gridRef : nat;
  pending : list ChainStep;
  highScore : Z
}.

Definition set_ui (w : World) (s : State) : World :=
  mkWorld s (objs w) (gridRef w) (pending w) (highScore w).
Definition set_objs (w : World) (os : list Grid) : World :=
  mkWorld (ui w) os (gridRef w) (pending w) (highScore w).
Definition set_pending (w : World) (ps : list ChainStep) : World :=
  mkWorld (ui w) (objs w) (gridRef w) ps (highScore w).
Definition set_highScore (w : World) (h : Z) : World :=
  mkWorld (ui w) (objs w) (gridRef w) (pending w) h.

Definition obj (w : World) (i : nat) : Grid := default [] (objs w !! i).

(** A new grid object. *)
Definition alloc (w : World) (g : Grid) : World * nat :=
  (set_objs w (objs w ++ [g]), length (objs w)).

(** [setGrid(object)]. *)
Definition setGrid (w : World) (i : nat) : World :=
  mkWorld (set_grid (ui w) (obj w i)) (objs w) i (pending w) (highScore w).

(** [await new Promise(resolve => setTimeout(resolve, 250))]. *)
Definition schedule (w : World) (c : ChainStep) : World :=
  set_pending w (pending w ++ [c]).

(** [animateChain(grid, chainCount)] up to its first [await]. *)
Definition chain_call (w : World) (g : nat) (chainCount : Z) : option World :=
  let w0 := set_ui w (set_isChaining (ui w) true) in
  matched ← findMatches (obj w0 g);
  if (0 <? length matched)%nat then
    Some (schedule (setGrid w0 g) (AfterShow g matched chainCount))
  else Some (set_ui w0 (set_isChaining (set_chainCounter (ui w0) 0) false)).

(** The code of [animateChain] between two [await]s. *)
Definition resume_chain (w : World) (c : ChainStep) : option World :=
  match c with
  | AfterShow g matched chainCount =>
      let '(w1, newGrid) := alloc w (removeMatchedPuyos (obj w g) matched) in
      let w2 := setGrid w1 newGrid in
      let s2 := set_chainCounter
                  (set_score (ui w2)
                     (score (ui w2) + Z.of_nat (length matched) * 10 * (chainCount + 1)))
                  (chainCount + 1) in
      Some (schedule (set_ui w2 s2) (AfterRemove newGrid chainCount))
  | AfterRemove newGrid chainCount =>
      let '(w1, gag) := alloc w (applyGravity (obj w newGrid)) in
      Some (schedule (setGrid w1 gag) (AfterGravity gag chainCount))
  | AfterGravity gag chainCount => chain_call w gag (chainCount + 1)
  end.

(** The timer of the [i]-th waiting pass fires. *)
Definition chain_timer (w : World) (i : nat) : option World :=
  match pending w !! i with
  | None => Some w
  | Some c => resume_chain (set_pending w (delete i (pending w))) c
  end.

(** [placePuyo], with the writes into the rows of the [grid] object and
    the first part of [animateChain(newGrid)]. *)
Definition w_placePuyo (w : World) (fresh : PuyoPair) : option World :=
  let s := ui w in
  match currentPuyo s with
  | None => Some w
  | Some cur =>
      if negb (lock_in_bounds cur) then Some (set_ui w (set_gameState s over))
      else
        let '(x2, y2) := getSecondPuyoPosition (x cur) (y cur) (rotation cur) in
        let written :=
          set_cell (set_cell (obj w (gridRef w)) (y cur) (x cur) (color1 cur)) y2 x2 (color2 cur) in
        let w1 := set_objs w (<[gridRef w := written]> (objs w)) in
        let '(w2, newGrid) := alloc w1 (applyGravity written) in
        let w3 := setGrid w2 newGrid in
        let w4 := set_ui w3 (set_canHold (set_currentPuyo (ui w3) None) true) in
        w5 ← chain_call w4 newGrid 0;
        Some (set_ui w5 (set_nextPuyos (set_currentPuyo (ui w5) (head (nextPuyos s)))
                           (tail (nextPuyos s) ++ [fresh])))
  end.

Definition w_movePuyo (w : World) (d : MoveDir) (fresh : PuyoPair) : option World :=
  let s := ui w in
  match currentPuyo s with
  | None => Some w
  | Some cur =>
      if negb (can_act s) then Some w else
      let np := move_target cur d in
      if isValidMove (grid s) np then Some (set_ui w (set_currentPuyo s (Some np)))
      else match d with
           | MoveDown => w_placePuyo w fresh
           | _ => Some w
           end
  end.

Definition togglePause (w : World) : World :=
  set_ui w (set_isPaused (ui w) (negb (isPaused (ui w)))).

Definition w_startGame (w : World) (p1 p2 p3 p4 : PuyoPair) : World :=
  let '(w1, g) := alloc w createEmptyGrid in
  set_ui (setGrid w1 g) (startGame (ui w1) p1 p2 p3 p4).

(** [handleKeyPress]; [fresh] is the pair a [generatePuyoPair()] call
    made by the handler would return.  The [switch] on the lower-cased
    key is a chain of tests; the [playSound] calls are dropped. *)
Definition handleKeyPress (w : World) (key : string) (fresh : PuyoPair) : option World :=
  let k := toLowerCase key in
  let w1 := if String.eqb k "escape" then togglePause w else w in
  if isPaused (ui w) then Some w1
  else if String.eqb k "a" then w_movePuyo w1 MoveLeft fresh
  else if String.eqb k "d" then w_movePuyo w1 MoveRight fresh
  else if String.eqb k "s" then w_movePuyo w1 MoveDown fresh
  else if String.eqb k "o" then Some (set_ui w1 (rotatePuyo (ui w1) RotLeft))
  else if String.eqb k "p" then Some (set_ui w1 (rotatePuyo (ui w1) RotRight))
  else if String.eqb k "q" then Some (set_ui w1 (holdPuyo (ui w1) fresh))
  else Some w1.

(** What can happen to the component: a click on the start button (shown
    on the title and game-over screens) or on Resume (shown while paused),
    a key press, a tick of the fall interval, the timer of a waiting chain
    pass.  Colours are the draws of the [generatePuyoPair()] calls. *)
Inductive Event :=
  | StartClick (p1 p2 p3 p4 : Color * Color)
  | ResumeClick
  | KeyDown (key : string) (c1 c2 : Color)
  | FallTick (c1 c2 : Color)
  | ChainTimer (i : nat).

Definition pair_of (c : Color * Color) : PuyoPair := generatePuyoPair c.1 c.2.

Definition handle_event (w : World) (e : Event) : option World :=
  match e with
  | StartClick p1 p2 p3 p4 =>
      match gameState (ui w) with
      | title | over => Some (w_startGame w (pair_of p1) (pair_of p2) (pair_of p3) (pair_of p4))
      | _ => Some w
      end
  | ResumeClick => if isPaused (ui w) then Some (togglePause w) else Some w
  | KeyDown key c1 c2 => handleKeyPress w key (generatePuyoPair c1 c2)
  | FallTick c1 c2 =>
      (* the interval runs while [gameState === 'active' && !isPaused && !isChaining] *)
      if can_act (ui w) && negb (isChaining (ui w))
      then w_movePuyo w MoveDown (generatePuyoPair c1 c2)
      else Some w
  | ChainTimer i => chain_timer w i
  end.

(** The effect on [[score, highScore]]. *)
Definition highScore_effect (w : World) : World :=
  if highScore w <? score (ui w) then set_highScore w (score (ui w)) else w.

Definition step (w : World) (e : Event) : option World :=
  w' ← handle_event w e; Some (highScore_effect w').

Fixpoint run (w : World) (es : list Event) : option World :=
  match es with
  | [] => Some w
  | e :: rest => w' ← step w e; run w' rest
  end.

(** The component after mounting, [hs0] the high score read back from
    [localStorage]: [0] when nothing is stored, else
    [parseInt(storedHighScore, 10)].  Every value the component stores is
    [score.toString()] of a non-negative integer score; a stored text that
    [parseInt] reads as [NaN] is not an integer and lies outside this
    model. *)
Definition init_world (hs0 : Z) : World :=
  mkWorld (mkState createEmptyGrid title 0 None [] 0 false None true false)
    [createEmptyGrid] 0 [] hs0.

Definition reachable (hs0 : Z) (w : World) : Prop :=
  exists es, run (init_world hs0) es = Some w.

(** ** What every reachable world satisfies *)

(** A grid of [GRID_ROWS] rows of [GRID_COLS] cells. *)
Definition grid_ok (g : Grid) : Prop := length g = 12%nat /\ rectangular g 6.

Definition chain_ref (c : ChainStep) : nat :=
  match c with AfterShow g _ _ | AfterRemove g _ | AfterGravity g _ => g end.

Definition chain_count (c : ChainStep) : Z :=
  match c with AfterShow _ _ n | AfterRemove _ n | AfterGravity _ n => n end.

(** The position [generatePuyoPair] gives and the hold swap restores. *)
Definition at_spawn (p : PuyoPair) : Prop := x p = 2 /\ y p = 0 /\ rotation p = 0.

Record world_inv (w : World) : Prop := {
  inv_objs : Forall grid_ok (objs w);
  inv_ref : (gridRef w < length (objs w))%nat;
  inv_sync : grid (ui w) = obj w (gridRef w);
  inv_pending : Forall (fun c => (chain_ref c < length (objs w))%nat /\ 0 <= chain_count c)
                  (pending w);
  inv_not_pause : gameState (ui w) <> pause;
  inv_started : gameState (ui w) <> title ->
                is_Some (currentPuyo (ui w)) /\ length (nextPuyos (ui w)) = 3%nat;
  inv_queue : Forall at_spawn (nextPuyos (ui w));
  inv_current : forall p, currentPuyo (ui w) = Some p -> lock_in_bounds p = true \/ at_spawn p;
  inv_score : 0 <= score (ui w)
}.

(** The world with the pause flag set to [b]. *)
Definition with_paused (w : World) (b : bool) : World :=
  set_ui w (set_isPaused (ui w) b).

(** 1 for a non-empty cell, 0 for an empty one. *)
Definition occ_nat (c : PuyoColor) : nat := if occupied c then 1%nat else 0%nat.


(** A position of the board holding a colour. *)
Definition coloured (g : Grid) (p : Z * Z) : Prop :=
  exists c, cell_at g p.1 p.2 = Some (Some c).

(** A position [findMatches] may report: in range and coloured. *)
Definition reported_ok (g : Grid) (p : Z * Z) : Prop :=
  0 <= p.1 < GRID_ROWS /\ 0 <= p.2 < GRID_COLS /\ coloured g p.

(** ** A session used by the examples

    A game started with the first pairs red-green, blue-yellow,
    red-green, blue-yellow, then 42 presses of [S], every refill drawing
    red-green.  Each pair falls straight down column 2; the column fills
    up and the last press locks a pair that has not moved from where it
    appeared. *)
Definition ev_drop : Event := KeyDown "s" red green.
Definition stack_column2 : list Event :=
  StartClick (red, green) (blue, yellow) (red, green) (blue, yellow) :: repeat ev_drop 42.
Definition column2_world : World :=
  default (init_world 0) (run (init_world 0) stack_column2).
(** The same session one press earlier: the pair in play is at row 1 of
    column 2, on top of a column filled from row 2 down; the last press
    locks it, which fills rows 0 and 1. *)
Definition column2_prev : World :=
  default (init_world 0)
    (run (init_world 0)
       (StartClick (red, green) (blue, yellow) (red, green) (blue, yellow) :: repeat ev_drop 41)).
Definition column2_over : World :=
  default (init_world 0) (step column2_world ev_drop).


(** * Theorems *)

(** ** C1 *)

(** Claim C1: [findMatches] returns each cell of a group of four or more
    exactly once.  On a board whose bottom row starts with four red cells
    it returns sixteen entries: the run is flood-filled again from each of
    its four cells, since [visited] is created afresh per start cell. *)
Theorem findMatches_run4_repeats :
  findMatches board_run4 =
  Some [(11, 0); (11, 1); (11, 2); (11, 3); (11, 1); (11, 2); (11, 0); (11, 3);
        (11, 2); (11, 3); (11, 1); (11, 0); (11, 3); (11, 2); (11, 1); (11, 0)].
Proof. vm_compute. reflexivity. Qed.

(** ** C2 *)

(** Claim C2: a pass removing six cells at chain index 0 adds [6 * 10 * 1
    = 60].  With a bottom row of six red cells the whole resolution, which
    is that single pass followed by an empty one, adds 360: [findMatches]
    lists each of the six cells six times and the score uses the length of
    that list. *)
Theorem animateChain_run6_score :
  option_map score (animateChain (chain_fuel board_run6) board_run6 0 (state_of_grid board_run6))
  = Some 360.
Proof. vm_compute. reflexivity. Qed.

Lemma reachable_column2_world : reachable 0 column2_world.
Proof. exists stack_column2. vm_compute. reflexivity. Qed.

Lemma reachable_column2_prev : reachable 0 column2_prev.
Proof.
  exists (StartClick (red, green) (blue, yellow) (red, green) (blue, yellow) :: repeat ev_drop 41).
  vm_compute. reflexivity.
Qed.

(** ** C3 *)

(** Claim C3 fails in a reachable session: the press of [S] that locks
    the pair at row 1 of column 2 fills the column up to row 0 (the spawn
    cell), yet the next pair is put into play there and the game stays
    active. *)
Lemma spawn_on_full_column_not_over :
  reachable 0 column2_prev
  /\ step column2_prev ev_drop = Some column2_world
  /\ truthy (cell_at (grid (ui column2_prev)) 0 2) = false
  /\ truthy (cell_at (grid (ui column2_world)) 0 2) = true
  /\ gameState (ui column2_world) = active
  /\ currentPuyo (ui column2_world) = Some (generatePuyoPair red green).
Proof.
  split; [exact reachable_column2_prev|]. vm_compute. repeat split.
Qed.

(** Claim C3, as the code does it: the lock puts the front of the queue
    into play with no look at the board and leaves the phase unchanged;
    a pair still at row 0 in orientation Up that cannot move down (a Down
    move to row 1 is refused by [isValidMove]) is locked, the lock finds
    its second cell at row -1, so the phase becomes [over] and nothing is
    written. *)
Theorem spawn_unchecked_then_over (s : State) (cur np : PuyoPair) (rest : list PuyoPair)
    (fresh : PuyoPair)
    (Hcur : currentPuyo s = Some cur) (Hq : nextPuyos s = np :: rest)
    (Hin : lock_in_bounds cur = true) :
  currentPuyo (placePuyo s fresh) = Some np
  /\ gameState (placePuyo s fresh) = gameState s
  /\ (forall (t : State) (p f : PuyoPair),
        currentPuyo t = Some p -> can_act t = true -> y p = 0 -> rotation p = 0 ->
        isValidMove (grid t) (move_target p MoveDown) = false ->
        gameState (movePuyo t MoveDown f) = over
        /\ grid (movePuyo t MoveDown f) = grid t
        /\ currentPuyo (movePuyo t MoveDown f) = currentPuyo t).
Proof.
  split; [|split].
  - unfold placePuyo. rewrite Hcur, Hin. simpl.
    destruct (getSecondPuyoPosition _ _ _). simpl. now rewrite Hq.
  - unfold placePuyo. rewrite Hcur, Hin. simpl.
    destruct (getSecondPuyoPosition _ _ _). reflexivity.
  - intros t p f Ht Hact Hy Hr Hv.
    unfold movePuyo. rewrite Ht, Hact. cbn [negb]. rewrite Hv.
    unfold placePuyo. rewrite Ht.
    destruct p as [c1 c2 px py pr]; simpl in *; subst py pr.
    unfold lock_in_bounds. simpl.
    replace (in_bounds px (0 - 1)) with false
      by (unfold in_bounds; now rewrite !andb_false_r).
    rewrite andb_false_r. simpl. now repeat split.
Qed.

Lemma spawn_unchecked_then_over_witness :
  (exists cur np rest,
     currentPuyo (ui column2_prev) = Some cur /\ nextPuyos (ui column2_prev) = np :: rest
     /\ lock_in_bounds cur = true
     /\ currentPuyo (placePuyo (ui column2_prev) (generatePuyoPair red green)) = Some np)
  /\ currentPuyo (ui column2_world) = Some (generatePuyoPair red green)
  /\ can_act (ui column2_world) = true
  /\ isValidMove (grid (ui column2_world)) (move_target (generatePuyoPair red green) MoveDown)
     = false
  /\ gameState (movePuyo (ui column2_world) MoveDown (generatePuyoPair red green)) = over.
Proof.
  assert (Hc : currentPuyo (ui column2_prev)
               = Some (default spawn_pair (currentPuyo (ui column2_prev))))
    by (vm_compute; reflexivity).
  assert (Hq : nextPuyos (ui column2_prev)
               = default spawn_pair (head (nextPuyos (ui column2_prev)))
                 :: tail (nextPuyos (ui column2_prev)))
    by (vm_compute; reflexivity).
  assert (Hl : lock_in_bounds (default spawn_pair (currentPuyo (ui column2_prev))) = true)
    by (vm_compute; reflexivity).
  assert (Hc' : currentPuyo (ui column2_world) = Some (generatePuyoPair red green))
    by (vm_compute; reflexivity).
  assert (Ha : can_act (ui column2_world) = true) by (vm_compute; reflexivity).
  assert (Hv : isValidMove (grid (ui column2_world))
                 (move_target (generatePuyoPair red green) MoveDown) = false)
    by (vm_compute; reflexivity).
  destruct (spawn_unchecked_then_over _ _ _ _ (generatePuyoPair red green) Hc Hq Hl)
    as (H1 & _ & H3).
  split; [do 3 eexists; split; [exact Hc|]; split; [exact Hq|]; split; [exact Hl|exact H1]|].
  split; [exact Hc'|]. split; [exact Ha|]. split; [exact Hv|].
  exact (proj1 (H3 _ _ (generatePuyoPair red green) Hc' Ha eq_refl eq_refl Hv)).
Defined.

(** ** C4 *)

(** Claim C4 fails at spawn: the first pair of a game started on an empty
    board sits at column 2, row 0, orientation Up, and its second cell is
    at row -1, outside the board. *)
Lemma spawned_pair_not_valid :
  currentPuyo state_spawned = Some spawn_pair
  /\ getSecondPuyoPosition (x spawn_pair) (y spawn_pair) (rotation spawn_pair) = (2, -1)
  /\ isValidMove (grid state_spawned) spawn_pair = false.
Proof. vm_compute. repeat split. Qed.

(** Claim C4, as the code does it: [movePuyo] and [rotatePuyo] commit a
    new position only when [isValidMove] holds for it on the current grid
    (otherwise the state is unchanged, or a Down move locks); spawn puts
    the front of the queue into play whatever the board holds, every pair
    [generatePuyoPair] makes (so every queued pair) is at column 2, row 0,
    orientation Up, and the hold swap moves the held pair there without
    any check; a pair at that position is never valid. *)
Theorem moves_commit_only_valid :
  (forall (s : State) (d : MoveDir) (f : PuyoPair),
     movePuyo s d f = s
     \/ (exists cur, currentPuyo s = Some cur
           /\ isValidMove (grid s) (move_target cur d) = true
           /\ movePuyo s d f = set_currentPuyo s (Some (move_target cur d)))
     \/ (d = MoveDown /\ movePuyo s d f = placePuyo s f))
  /\ (forall (s : State) (d : RotDir),
     rotatePuyo s d = s
     \/ (exists cur,
           let np := with_pos cur (x cur) (y cur) (rotate_step (rotation cur) d) in
           currentPuyo s = Some cur
           /\ isValidMove (grid s) np = true
           /\ rotatePuyo s d = set_currentPuyo s (Some np)))
  /\ (forall (s : State) (cur : PuyoPair) (f : PuyoPair),
        currentPuyo s = Some cur -> lock_in_bounds cur = true ->
        currentPuyo (placePuyo s f) = head (nextPuyos s))
  /\ (forall c1 c2 : Color, generatePuyoPair c1 c2 = with_pos (generatePuyoPair c1 c2) 2 0 0)
  /\ (forall (s : State) (cur h f : PuyoPair),
        currentPuyo s = Some cur -> heldPuyo s = Some h -> canHold s = true ->
        can_act s = true -> currentPuyo (holdPuyo s f) = Some (with_pos h 2 0 0))
  /\ (forall (g : Grid) (p : PuyoPair), isValidMove g (with_pos p 2 0 0) = false).
Proof.
  split; [|split; [|split; [|split; [|split]]]].
  - intros s d f. unfold movePuyo.
    destruct (currentPuyo s) as [cur|] eqn:Hc; [|now left].
    destruct (can_act s); simpl; [|now left].
    destruct (isValidMove (grid s) (move_target cur d)) eqn:Hv.
    + right; left. exists cur. auto.
    + destruct d; auto.
  - intros s d. unfold rotatePuyo.
    destruct (currentPuyo s) as [cur|] eqn:Hc; [|now left].
    destruct (can_act s); simpl; [|now left].
    destruct (isValidMove _ _) eqn:Hv; [|now left].
    right. exists cur. simpl. auto.
  - intros s cur f Hc Hin. unfold placePuyo. rewrite Hc, Hin. simpl.
    destruct (getSecondPuyoPosition _ _ _). reflexivity.
  - intros c1 c2. reflexivity.
  - intros s cur h f Hc Hh Hcan Hact. unfold holdPuyo. rewrite Hc, Hcan, Hh.
    unfold can_act in Hact. apply andb_prop in Hact as [Ha Hp].
    rewrite Ha. destruct (isPaused s); [discriminate|]. reflexivity.
  - intros g p. unfold isValidMove, with_pos, in_bounds. simpl.
    reflexivity.
Qed.

(** ** C5 *)

(** Claim C5 says a refused move reports failure.  [movePuyo] is declared
    [=> void]: a committed Left move (pair in the middle of the board) and
    a refused one (pair against the left wall) return the same value. *)
Lemma move_left_reports_nothing :
  fst (movePuyo_call (state_with free_pair) MoveLeft spawn_pair)
  = fst (movePuyo_call (state_with wall_pair) MoveLeft spawn_pair)
  /\ snd (movePuyo_call (state_with free_pair) MoveLeft spawn_pair) <> state_with free_pair
  /\ snd (movePuyo_call (state_with wall_pair) MoveLeft spawn_pair) = state_with wall_pair.
Proof.
  vm_compute. split; [reflexivity|]. split; [|reflexivity]. congruence.
Qed.

(** Claim C5, as the code does it: with a pair in play, a refused Left or
    Right move and a refused rotation leave the whole state unchanged, a
    refused Down move runs [placePuyo], and neither handler returns a
    value. *)
Theorem refused_moves_no_effect (s : State) (cur : PuyoPair)
    (Hcur : currentPuyo s = Some cur) (Hact : can_act s = true) :
  (forall (d : MoveDir) (f : PuyoPair), d <> MoveDown ->
     isValidMove (grid s) (move_target cur d) = false -> movePuyo s d f = s)
  /\ (forall d : RotDir,
     isValidMove (grid s) (with_pos cur (x cur) (y cur) (rotate_step (rotation cur) d)) = false ->
     rotatePuyo s d = s)
  /\ (forall f : PuyoPair,
     isValidMove (grid s) (move_target cur MoveDown) = false -> movePuyo s MoveDown f = placePuyo s f)
  /\ (forall (d : MoveDir) (f : PuyoPair), fst (movePuyo_call s d f) = tt)
  /\ (forall d : RotDir, fst (rotatePuyo_call s d) = tt).
Proof.
  split; [|split; [|split; [|split]]].
  - intros d f Hd Hv. unfold movePuyo. rewrite Hcur, Hact. simpl. rewrite Hv.
    destruct d; congruence.
  - intros d Hv. unfold rotatePuyo. rewrite Hcur, Hact. simpl. now rewrite Hv.
  - intros f Hv. unfold movePuyo. rewrite Hcur, Hact. cbn [negb]. now rewrite Hv.
  - reflexivity.
  - reflexivity.
Qed.

Lemma refused_moves_no_effect_witness :
  currentPuyo (state_with wall_pair) = Some wall_pair
  /\ can_act (state_with wall_pair) = true
  /\ movePuyo (state_with wall_pair) MoveLeft spawn_pair = state_with wall_pair.
Proof.
  split; [reflexivity|]. split; [reflexivity|].
  apply (proj1 (refused_moves_no_effect (state_with wall_pair) wall_pair eq_refl eq_refl)).
  - discriminate.
  - vm_compute. reflexivity.
Defined.

(** ** C6 *)

Lemma holdPuyo_blocked (t : State) (f : PuyoPair) :
  canHold t = false -> holdPuyo t f = t.
Proof.
  intros H. unfold holdPuyo. destruct (currentPuyo t); [|reflexivity].
  now rewrite H.
Qed.

Lemma rotatePuyo_canHold (t : State) (d : RotDir) :
  canHold (rotatePuyo t d) = canHold t.
Proof.
  unfold rotatePuyo. destruct (currentPuyo t); [|reflexivity].
  destruct (negb (can_act t)); [reflexivity|].
  destruct (isValidMove _ _); reflexivity.
Qed.

Lemma movePuyo_canHold (t : State) (d : MoveDir) (f : PuyoPair) :
  movePuyo t d f = placePuyo t f \/ canHold (movePuyo t d f) = canHold t.
Proof.
  unfold movePuyo. destruct (currentPuyo t); [|now right].
  destruct (negb (can_act t)); [now right|].
  destruct (isValidMove _ _); [now right|].
  destruct d; auto.
Qed.

(** Claim C6: a successful hold clears [canHold], so a second hold before
    the next lock changes nothing (nor does one after moves or rotations
    that do not lock); with a pair already held, hold swaps it back into
    play at column 2, row 0, orientation Up and keeps the queue; with none
    held, it stores the current pair and takes the front of the queue,
    which is refilled with a fresh pair. *)
Theorem holdPuyo_once_per_lock (s : State) (cur f1 f2 : PuyoPair)
    (Hcur : currentPuyo s = Some cur) (Hok : canHold s = true)
    (Hact : gameState s = active) (Hp : isPaused s = false) :
  let s1 := holdPuyo s f1 in
  canHold s1 = false
  /\ holdPuyo s1 f2 = s1
  /\ (forall h : PuyoPair, heldPuyo s = Some h ->
        currentPuyo s1 = Some (with_pos h 2 0 0) /\ heldPuyo s1 = Some cur
        /\ nextPuyos s1 = nextPuyos s /\ grid s1 = grid s)
  /\ (heldPuyo s = None ->
        heldPuyo s1 = Some cur /\ currentPuyo s1 = head (nextPuyos s)
        /\ nextPuyos s1 = tail (nextPuyos s) ++ [f1] /\ grid s1 = grid s)
  /\ (forall (t : State) (f : PuyoPair), canHold t = false -> holdPuyo t f = t)
  /\ (forall (t : State) (d : RotDir), canHold (rotatePuyo t d) = canHold t)
  /\ (forall (t : State) (d : MoveDir) (f : PuyoPair),
        movePuyo t d f = placePuyo t f \/ canHold (movePuyo t d f) = canHold t).
Proof.
  intros s1.
  assert (Hs1 : s1 = set_canHold
                       match heldPuyo s with
                       | Some h => set_heldPuyo (set_currentPuyo s (Some (with_pos h 2 0 0))) (Some cur)
                       | None => set_nextPuyos (set_currentPuyo (set_heldPuyo s (Some cur))
                                                 (head (nextPuyos s)))
                                   (tail (nextPuyos s) ++ [f1])
                       end false).
  { unfold s1, holdPuyo. rewrite Hcur, Hok, Hact, Hp. reflexivity. }
  assert (Hc1 : canHold s1 = false) by (rewrite Hs1; reflexivity).
  split; [exact Hc1|]. split; [now apply holdPuyo_blocked|].
  split; [|split; [|split; [exact holdPuyo_blocked|split;
          [exact rotatePuyo_canHold | exact movePuyo_canHold]]]].
  - intros h Hh. rewrite Hs1, Hh. repeat split.
  - intros Hh. rewrite Hs1, Hh. repeat split.
Qed.

Lemma holdPuyo_once_per_lock_witness :
  currentPuyo (state_with free_pair) = Some free_pair
  /\ canHold (state_with free_pair) = true
  /\ gameState (state_with free_pair) = active
  /\ isPaused (state_with free_pair) = false
  /\ holdPuyo (holdPuyo (state_with free_pair) spawn_pair) spawn_pair
     = holdPuyo (state_with free_pair) spawn_pair.
Proof.
  split; [reflexivity|]. split; [reflexivity|]. split; [reflexivity|].
  split; [reflexivity|].
  exact (proj1 (proj2 (holdPuyo_once_per_lock (state_with free_pair) free_pair
                         spawn_pair spawn_pair eq_refl eq_refl eq_refl eq_refl))).
Defined.

(** ** C9 *)

(** Claim C9 fails for the first pair of a game on an empty board: three
    right rotations are accepted, the fourth (back to Up, second cell at
    row -1) is refused, so the pair ends in orientation Left (3); the same
    refusal leaves it in orientation Left after a left then a right
    rotation. *)
Lemma rotations_from_spawn :
  option_map rotation (currentPuyo state_spawned) = Some 0
  /\ option_map rotation (currentPuyo (rotate_right4 state_spawned)) = Some 3
  /\ option_map rotation
       (currentPuyo (rotatePuyo (rotatePuyo state_spawned RotLeft) RotRight)) = Some 3.
Proof. vm_compute. repeat split. Qed.

Lemma rotate_step_range (r : Z) (d : RotDir) :
  0 <= r < 4 -> 0 <= rotate_step r d < 4.
Proof.
  intros Hr. unfold rotate_step.
  assert (0 <= r + match d with RotLeft => -1 | RotRight => 1 end + 4)
    by (destruct d; lia).
  pose proof (Z.rem_bound_pos (r + match d with RotLeft => -1 | RotRight => 1 end + 4) 4).
  lia.
Qed.

Lemma rotate_step_cycles (r : Z) :
  0 <= r < 4 ->
  rotate_step (rotate_step (rotate_step (rotate_step r RotRight) RotRight) RotRight) RotRight = r
  /\ rotate_step (rotate_step r RotLeft) RotRight = r.
Proof.
  intros Hr.
  assert (r = 0 \/ r = 1 \/ r = 2 \/ r = 3) as [ -> | [ -> | [ -> | -> ] ] ] by lia;
    split; reflexivity.
Qed.

(** A rotation of a pair that is free to take every orientation where it
    stands is committed. *)
Lemma rotatePuyo_free (t : State) (c : PuyoPair) (d : RotDir) :
  currentPuyo t = Some c -> can_act t = true -> 0 <= rotation c < 4 ->
  (forall r, 0 <= r < 4 -> isValidMove (grid t) (with_pos c (x c) (y c) r) = true) ->
  rotatePuyo t d = set_currentPuyo t (Some (with_pos c (x c) (y c) (rotate_step (rotation c) d))).
Proof.
  intros Hc Ha Hr Hf. unfold rotatePuyo. rewrite Hc, Ha. cbn [negb].
  now rewrite (Hf _ (rotate_step_range _ d Hr)).
Qed.

Lemma set_currentPuyo_twice (t : State) (p q : option PuyoPair) :
  set_currentPuyo (set_currentPuyo t p) q = set_currentPuyo t q.
Proof. reflexivity. Qed.

Lemma set_currentPuyo_same (t : State) (c : PuyoPair) :
  currentPuyo t = Some c -> set_currentPuyo t (Some c) = t.
Proof. destruct t; simpl. now intros ->. Qed.

Lemma with_pos_twice (c : PuyoPair) (a b r a' b' r' : Z) :
  with_pos (with_pos c a b r) a' b' r' = with_pos c a' b' r'.
Proof. reflexivity. Qed.

Lemma x_with_pos (c : PuyoPair) (a b r : Z) : x (with_pos c a b r) = a.
Proof. reflexivity. Qed.
Lemma y_with_pos (c : PuyoPair) (a b r : Z) : y (with_pos c a b r) = b.
Proof. reflexivity. Qed.
Lemma rotation_with_pos (c : PuyoPair) (a b r : Z) : rotation (with_pos c a b r) = r.
Proof. reflexivity. Qed.

Create Rewrite HintDb pair_pos.
#[export] Hint Rewrite set_currentPuyo_twice with_pos_twice x_with_pos y_with_pos
  rotation_with_pos : pair_pos.

Lemma with_pos_eta (c : PuyoPair) : with_pos c (x c) (y c) (rotation c) = c.
Proof. now destruct c. Qed.

(** Rewrites the innermost rotation of a pair already moved by a
    committed rotation. *)
Ltac rot_free Hact Hr Hfree :=
  match goal with
  | |- context [rotatePuyo (set_currentPuyo ?t (Some ?c)) ?d] =>
      rewrite (rotatePuyo_free (set_currentPuyo t (Some c)) c d eq_refl Hact);
      [| simpl; repeat apply rotate_step_range; exact Hr | exact Hfree]
  end.

(** Claim C9, as the code does it: the orientation update
    [(r + (left ? -1 : 1) + 4) % 4] cycles through 0..3, so four right
    steps, or a left then a right step, give back [r]; [rotatePuyo]
    commits a step only when the new orientation is valid, so the calls
    give back the original state when the pair can take every orientation
    where it stands. *)
Theorem rotation_cycles (s : State) (cur : PuyoPair)
    (Hcur : currentPuyo s = Some cur) (Hact : can_act s = true)
    (Hr : 0 <= rotation cur < 4)
    (Hfree : forall r, 0 <= r < 4 -> isValidMove (grid s) (with_pos cur (x cur) (y cur) r) = true) :
  rotate_step (rotate_step (rotate_step (rotate_step (rotation cur) RotRight) RotRight)
     RotRight) RotRight = rotation cur
  /\ rotate_step (rotate_step (rotation cur) RotLeft) RotRight = rotation cur
  /\ rotate_right4 s = s
  /\ rotatePuyo (rotatePuyo s RotLeft) RotRight = s.
Proof.
  destruct (rotate_step_cycles _ Hr) as [H4 H2].
  split; [exact H4|]. split; [exact H2|].
  split.
  - unfold rotate_right4.
    rewrite (rotatePuyo_free s cur RotRight Hcur Hact Hr Hfree).
    do 3 rot_free Hact Hr Hfree.
    autorewrite with pair_pos. rewrite H4, with_pos_eta.
    now apply set_currentPuyo_same.
  - rewrite (rotatePuyo_free s cur RotLeft Hcur Hact Hr Hfree).
    rot_free Hact Hr Hfree.
    autorewrite with pair_pos. rewrite H2, with_pos_eta.
    now apply set_currentPuyo_same.
Qed.

Lemma rotation_cycles_witness :
  currentPuyo (state_with free_pair) = Some free_pair
  /\ can_act (state_with free_pair) = true
  /\ rotate_right4 (state_with free_pair) = state_with free_pair.
Proof.
  split; [reflexivity|]. split; [reflexivity|].
  refine (proj1 (proj2 (proj2 (rotation_cycles (state_with free_pair) free_pair
                                  eq_refl eq_refl _ _)))).
  - simpl. lia.
  - intros r Hr.
    assert (r = 0 \/ r = 1 \/ r = 2 \/ r = 3) as [ -> | [ -> | [ -> | -> ] ] ] by lia;
      vm_compute; reflexivity.
Defined.

(** ** Reading back a written cell *)

Lemma get_set_nat (g : Grid) (r c r' c' : nat) (v : PuyoColor) :
  get_nat (set_nat g r c v) r' c' =
  if decide (r = r' /\ c = c' /\ is_Some (get_nat g r c)) then Some v
  else get_nat g r' c'.
Proof.
  unfold get_nat, set_nat. rewrite list_lookup_alter.
  destruct (decide (r = r')) as [<-|Hr].
  - destruct (g !! r) as [row|] eqn:Hg; simpl.
    + rewrite list_lookup_insert.
      destruct (decide (c = c' /\ (c < length row)%nat)) as [[<- Hc]|Hn].
      * rewrite decide_True; [reflexivity|].
        split; [reflexivity|]. split; [reflexivity|].
        now apply lookup_lt_is_Some_2.
      * rewrite decide_False; [reflexivity|].
        intros (_ & <- & Hs). apply Hn. split; [reflexivity|].
        now apply lookup_lt_is_Some_1.
    + rewrite decide_False; [reflexivity|]. intros (_ & _ & Hs).
      now apply is_Some_None in Hs.
  - rewrite decide_False; [reflexivity|]. intros (? & _). contradiction.
Qed.

Lemma shape_set_nat (g : Grid) (r c : nat) (v : PuyoColor) :
  length <$> set_nat g r c v = length <$> g.
Proof.
  apply list_eq. intros i. rewrite !list_lookup_fmap. unfold set_nat.
  rewrite list_lookup_alter. case_decide; [subst|reflexivity].
  destruct (g !! i); simpl; [now rewrite length_insert|reflexivity].
Qed.

Lemma cell_at_get_nat (g : Grid) (yy xx : Z) :
  cell_at g yy xx =
  if (0 <=? yy) && (0 <=? xx) then get_nat g (Z.to_nat yy) (Z.to_nat xx) else None.
Proof. reflexivity. Qed.

Lemma set_cell_set_nat (g : Grid) (yy xx : Z) (v : PuyoColor) :
  set_cell g yy xx v =
  if (0 <=? yy) && (0 <=? xx) then set_nat g (Z.to_nat yy) (Z.to_nat xx) v else g.
Proof. reflexivity. Qed.

(** Two grids with rows of the same lengths have the same cells in range. *)
Lemma get_nat_is_Some_shape (g1 g2 : Grid) (r c : nat) :
  length <$> g1 = length <$> g2 ->
  is_Some (get_nat g1 r c) <-> is_Some (get_nat g2 r c).
Proof.
  intros Hm. unfold get_nat.
  assert (Hl : length <$> (g1 !! r) = length <$> (g2 !! r)).
  { now rewrite <- !list_lookup_fmap, Hm. }
  destruct (g1 !! r) as [r1|], (g2 !! r) as [r2|]; simpl in *; try discriminate.
  - injection Hl as Hl. rewrite !lookup_lt_is_Some. lia.
  - split; intros []; discriminate.
Qed.

Lemma in_grid_nonneg (g : Grid) (yy xx : Z) :
  in_grid g (yy, xx) -> (0 <=? yy) && (0 <=? xx) = true.
Proof.
  unfold in_grid, cell_at. simpl. destruct ((0 <=? yy) && (0 <=? xx)); [reflexivity|].
  intros [? Hs]. discriminate.
Qed.

Lemma cell_at_set_cell (g : Grid) (y' x' yy xx : Z) (v : PuyoColor) :
  in_grid g (y', x') ->
  cell_at (set_cell g y' x' v) yy xx =
  if decide ((yy, xx) = (y', x')) then Some v else cell_at g yy xx.
Proof.
  intros Hin. pose proof (in_grid_nonneg _ _ _ Hin) as Hn.
  unfold in_grid in Hin; simpl in Hin. rewrite cell_at_get_nat, Hn in Hin.
  rewrite set_cell_set_nat, Hn, !cell_at_get_nat.
  apply andb_prop in Hn as [Hy Hx]. apply Z.leb_le in Hy, Hx.
  destruct ((0 <=? yy) && (0 <=? xx)) eqn:Hn'.
  - apply andb_prop in Hn' as [Hy' Hx']. apply Z.leb_le in Hy', Hx'.
    rewrite get_set_nat.
    destruct (decide ((yy, xx) = (y', x'))) as [Heq|Hne].
    + injection Heq as -> ->. rewrite decide_True; auto.
    + rewrite decide_False; [reflexivity|].
      intros (E1 & E2 & _). apply Hne. f_equal; lia.
  - rewrite decide_False; [reflexivity|].
    intros Heq. injection Heq as -> ->.
    apply andb_false_iff in Hn' as [H|H]; apply Z.leb_gt in H; lia.
Qed.

Lemma shape_set_cell (g : Grid) (yy xx : Z) (v : PuyoColor) :
  length <$> set_cell g yy xx v = length <$> g.
Proof.
  rewrite set_cell_set_nat. destruct (_ && _); [apply shape_set_nat|reflexivity].
Qed.

Lemma in_grid_shape (g1 g2 : Grid) (p : Z * Z) :
  length <$> g1 = length <$> g2 -> in_grid g1 p <-> in_grid g2 p.
Proof.
  intros Hm. unfold in_grid. rewrite !cell_at_get_nat.
  destruct (_ && _); [now apply get_nat_is_Some_shape|reflexivity].
Qed.

Lemma removeMatchedPuyos_cons (g : Grid) (yy xx : Z) (ms : list (Z * Z)) :
  removeMatchedPuyos g ((yy, xx) :: ms) = removeMatchedPuyos (set_cell g yy xx None) ms.
Proof. reflexivity. Qed.

Lemma shape_removeMatchedPuyos (g : Grid) (ms : list (Z * Z)) :
  length <$> removeMatchedPuyos g ms = length <$> g.
Proof.
  revert g. induction ms as [|[yy xx] ms IH]; intros g; [reflexivity|].
  rewrite removeMatchedPuyos_cons, IH. apply shape_set_cell.
Qed.

Lemma removeMatchedPuyos_cells (g : Grid) (ms : list (Z * Z)) :
  Forall (in_grid g) ms ->
  forall yy xx, cell_at (removeMatchedPuyos g ms) yy xx =
    if bool_decide ((yy, xx) ∈ ms) then Some None else cell_at g yy xx.
Proof.
  revert g. induction ms as [|[y' x'] ms IH]; intros g Hin yy xx.
  - reflexivity.
  - apply Forall_cons in Hin as [Hp Hms].
    rewrite removeMatchedPuyos_cons, IH.
    2:{ eapply Forall_impl; [exact Hms|]. intros p Hq.
        apply (in_grid_shape g); [symmetry; apply shape_set_cell|exact Hq]. }
    rewrite (cell_at_set_cell _ _ _ _ _ _ Hp).
    destruct (decide ((yy, xx) = (y', x'))) as [Heq|Hne].
    + rewrite Heq. rewrite (bool_decide_true ((y', x') ∈ (y', x') :: ms))
        by (left). now destruct (bool_decide _).
    + destruct (bool_decide_reflect ((yy, xx) ∈ ms)) as [Hi|Hi];
      destruct (bool_decide_reflect ((yy, xx) ∈ (y', x') :: ms)) as [Hi'|Hi'];
      try reflexivity.
      * exfalso. apply Hi'. now right.
      * exfalso. apply elem_of_cons in Hi' as [?|?]; contradiction.
Qed.

(** Grids with rows of the same lengths and the same cells are equal. *)
Lemma grid_ext_cells (g1 g2 : Grid) :
  length <$> g1 = length <$> g2 ->
  (forall yy xx, cell_at g1 yy xx = cell_at g2 yy xx) -> g1 = g2.
Proof.
  intros Hm Hc. apply list_eq. intros i.
  assert (Hl : length <$> (g1 !! i) = length <$> (g2 !! i))
    by (now rewrite <- !list_lookup_fmap, Hm).
  destruct (g1 !! i) as [r1|] eqn:H1, (g2 !! i) as [r2|] eqn:H2;
    simpl in Hl; try discriminate; [|reflexivity].
  f_equal. apply list_eq. intros j.
  specialize (Hc (Z.of_nat i) (Z.of_nat j)).
  rewrite !cell_at_get_nat in Hc. simpl in Hc.
  destruct (0 <=? Z.of_nat i) eqn:Ei; [|apply Z.leb_gt in Ei; lia].
  destruct (0 <=? Z.of_nat j) eqn:Ej; [|apply Z.leb_gt in Ej; lia].
  simpl in Hc. rewrite !Nat2Z.id in Hc. unfold get_nat in Hc.
  now rewrite H1, H2 in Hc.
Qed.

(** ** C10 *)

(** The assignments of [removeMatchedPuyos] on cells of the grid. *)
Lemma js_set_cell_in_grid (g : Grid) (yy xx : Z) (v : PuyoColor) :
  in_grid g (yy, xx) ->
  js_set_cell (js_of_grid g) yy xx v = Some (js_of_grid (set_cell g yy xx v)).
Proof.
  intros Hin. pose proof (in_grid_nonneg _ _ _ Hin) as Hn.
  unfold in_grid in Hin; simpl in Hin. rewrite cell_at_get_nat, Hn in Hin.
  rewrite set_cell_set_nat, Hn.
  apply andb_prop in Hn as [Hy Hx]. apply Z.leb_le in Hy, Hx.
  unfold get_nat in Hin.
  destruct (g !! Z.to_nat yy) as [row|] eqn:Hr; simpl in Hin; [|now destruct Hin].
  apply lookup_lt_is_Some in Hin.
  unfold js_set_cell, js_of_grid.
  replace (yy <? 0) with false by (symmetry; apply Z.ltb_ge; lia).
  rewrite list_lookup_fmap, Hr. simpl. f_equal.
  unfold js_assign.
  replace (xx <? 0) with false by (symmetry; apply Z.ltb_ge; lia).
  rewrite length_fmap. replace (Z.to_nat xx <? length row)%nat with true
    by (symmetry; apply Nat.ltb_lt; exact Hin).
  apply list_eq. intros i. unfold set_nat.
  rewrite list_lookup_fmap, list_lookup_alter.
  destruct (decide (i = Z.to_nat yy)) as [->|Hi].
  - rewrite list_lookup_insert_eq by (rewrite length_fmap; now apply lookup_lt_Some in Hr).
    rewrite Hr, decide_True by reflexivity. simpl. now rewrite list_fmap_insert.
  - rewrite list_lookup_insert_ne by congruence.
    rewrite decide_False by congruence. now rewrite list_lookup_fmap.
Qed.

Lemma removeMatchedPuyos_js_in_grid (g : Grid) (ms : list (Z * Z)) :
  Forall (in_grid g) ms ->
  removeMatchedPuyos_js g ms = Some (js_of_grid (removeMatchedPuyos g ms)).
Proof.
  unfold removeMatchedPuyos_js. revert g.
  induction ms as [|[yy xx] ms IH]; intros g Hin; [reflexivity|].
  apply Forall_cons in Hin as [Hp Hms]. cbn [fold_left].
  change (Some (js_of_grid g) ≫= (fun gr => js_set_cell gr yy xx None))
    with (js_set_cell (js_of_grid g) yy xx None).
  rewrite (js_set_cell_in_grid _ _ _ _ Hp), removeMatchedPuyos_cons.
  apply IH. eapply Forall_impl; [exact Hms|]. intros q Hq.
  apply (in_grid_shape g); [symmetry; apply shape_set_cell|exact Hq].
Qed.

(** Claim C10 fails for positions off the board: a position whose row
    does not exist makes [removeMatchedPuyos] throw, and a column past the
    end of its row lengthens that row. *)
Lemma removeMatchedPuyos_off_board :
  removeMatchedPuyos_js board_run4 [(12, 0)] = None
  /\ removeMatchedPuyos_js board_run4 [(-1, 0)] = None
  /\ option_map (fun g => length <$> g !! 0%nat) (removeMatchedPuyos_js board_run4 [(0, 6)])
     = Some (Some 7%nat)
  /\ length <$> board_run4 !! 0%nat = Some 6%nat.
Proof. vm_compute. repeat split. Qed.

(** Claim C10, for positions that name cells of the grid: there the
    source's assignments are those of the model, and [removeMatchedPuyos]
    empties exactly the listed cells and keeps every other cell and the
    shape of the grid; so the result depends only on the set of listed
    positions, and a list with repeated entries (as [findMatches] returns)
    gives the same grid as its deduplication. *)
Theorem removeMatchedPuyos_frame (g : Grid) (ms : list (Z * Z))
    (Hin : Forall (in_grid g) ms) :
  removeMatchedPuyos_js g ms = Some (js_of_grid (removeMatchedPuyos g ms))
  /\ (forall yy xx, cell_at (removeMatchedPuyos g ms) yy xx =
     if bool_decide ((yy, xx) ∈ ms) then Some None else cell_at g yy xx)
  /\ length <$> removeMatchedPuyos g ms = length <$> g
  /\ (forall ms' : list (Z * Z), (forall p, p ∈ ms <-> p ∈ ms') ->
        removeMatchedPuyos g ms = removeMatchedPuyos g ms')
  /\ removeMatchedPuyos g ms = removeMatchedPuyos g (remove_dups ms).
Proof.
  assert (Hsame : forall ms' : list (Z * Z), (forall p, p ∈ ms <-> p ∈ ms') ->
            removeMatchedPuyos g ms = removeMatchedPuyos g ms').
  { intros ms' Hiff.
    assert (Hin' : Forall (in_grid g) ms').
    { apply Forall_forall. intros p Hp. rewrite Forall_forall in Hin.
      apply Hin, Hiff, Hp. }
    apply grid_ext_cells.
    - now rewrite !shape_removeMatchedPuyos.
    - intros yy xx.
      rewrite (removeMatchedPuyos_cells _ _ Hin), (removeMatchedPuyos_cells _ _ Hin').
      destruct (bool_decide_reflect ((yy, xx) ∈ ms)) as [H1|H1];
      destruct (bool_decide_reflect ((yy, xx) ∈ ms')) as [H2|H2];
      try reflexivity; exfalso.
      + apply H2, Hiff, H1.
      + apply H1, Hiff, H2. }
  split; [exact (removeMatchedPuyos_js_in_grid _ _ Hin)|].
  split; [exact (removeMatchedPuyos_cells _ _ Hin)|].
  split; [apply shape_removeMatchedPuyos|].
  split; [exact Hsame|].
  apply Hsame. intros p. symmetry. apply elem_of_remove_dups.
Qed.

Lemma removeMatchedPuyos_frame_witness :
  Forall (in_grid board_run4) [(11, 0); (11, 1); (11, 2); (11, 3); (11, 1); (11, 0)]
  /\ removeMatchedPuyos board_run4 [(11, 0); (11, 1); (11, 2); (11, 3); (11, 1); (11, 0)]
     = removeMatchedPuyos board_run4
         (remove_dups [(11, 0); (11, 1); (11, 2); (11, 3); (11, 1); (11, 0)]).
Proof.
  assert (H : Forall (in_grid board_run4)
                [(11, 0); (11, 1); (11, 2); (11, 3); (11, 1); (11, 0)]).
  { repeat constructor; unfold in_grid; vm_compute; eexists; reflexivity. }
  split; [exact H|].
  exact (proj2 (proj2 (proj2 (proj2 (removeMatchedPuyos_frame _ _ H))))).
Defined.

(** ** Columns *)

Section Columns.

Variable w : nat.

Lemma rectangular_lookup (g : Grid) (i : nat) (row : list PuyoColor) :
  rectangular g w -> g !! i = Some row -> length row = w.
Proof. intros Hr Hi. exact (proj1 (Forall_lookup _ _) Hr i row Hi). Qed.

Lemma rectangular_set_nat (g : Grid) (r c : nat) (v : PuyoColor) :
  rectangular g w -> rectangular (set_nat g r c v) w.
Proof.
  intros Hr. apply Forall_lookup. intros i row Hi.
  unfold set_nat in Hi. rewrite list_lookup_alter in Hi.
  case_decide; [subst|exact (rectangular_lookup _ _ _ Hr Hi)].
  destruct (g !! i) as [row0|] eqn:H0; simpl in Hi; [|discriminate].
  injection Hi as <-. rewrite length_insert.
  exact (rectangular_lookup _ _ _ Hr H0).
Qed.

Lemma length_set_nat (g : Grid) (r c : nat) (v : PuyoColor) :
  length (set_nat g r c v) = length g.
Proof. apply length_alter. Qed.

Lemma length_column (g : Grid) (c : nat) : length (column g c) = length g.
Proof. apply length_fmap. Qed.

Lemma get_nat_column (g : Grid) (r c : nat) :
  rectangular g w -> (c < w)%nat -> get_nat g r c = column g c !! r.
Proof.
  intros Hr Hc. unfold get_nat, column. rewrite list_lookup_fmap.
  destruct (g !! r) as [row|] eqn:Hg; simpl; [|reflexivity].
  pose proof (rectangular_lookup _ _ _ Hr Hg) as Hl.
  destruct (lookup_lt_is_Some_2 row c) as [a Ha]; [lia|].
  now rewrite Ha.
Qed.

Lemma column_set_nat_same (g : Grid) (r c : nat) (v : PuyoColor) :
  rectangular g w -> (c < w)%nat ->
  column (set_nat g r c v) c = <[r := v]> (column g c).
Proof.
  intros Hr Hc. apply list_eq. intros i. unfold column, set_nat.
  rewrite list_lookup_fmap, list_lookup_alter, list_lookup_insert, length_fmap,
    list_lookup_fmap.
  destruct (decide (r = i)) as [<-|Hne].
  - destruct (g !! r) as [row|] eqn:Hg; simpl.
    + pose proof (rectangular_lookup _ _ _ Hr Hg) as Hl.
      rewrite list_lookup_insert_eq by lia.
      rewrite decide_True; [reflexivity|].
      split; [reflexivity|]. apply lookup_lt_is_Some_1. now exists row.
    + rewrite decide_False; [reflexivity|]. intros [_ Hlt].
      apply lookup_lt_is_Some_2 in Hlt as [? Hs]. congruence.
  - rewrite decide_False; [reflexivity|]. intros [? _]. contradiction.
Qed.

Lemma column_set_nat_other (g : Grid) (r c c' : nat) (v : PuyoColor) :
  c <> c' -> column (set_nat g r c v) c' = column g c'.
Proof.
  intros Hne. apply list_eq. intros i. unfold column, set_nat.
  rewrite !list_lookup_fmap, list_lookup_alter.
  case_decide; [subst|reflexivity].
  destruct (g !! i); simpl; [|reflexivity].
  now rewrite list_lookup_insert_ne.
Qed.

(** [gravity_col] changes column [c] as [gravity_col_list] does and no
    other column. *)
Lemma gravity_col_column (k c e : nat) (g : Grid) :
  rectangular g w -> (c < w)%nat ->
  rectangular (gravity_col k c e g) w
  /\ length (gravity_col k c e g) = length g
  /\ column (gravity_col k c e g) c = gravity_col_list k e (column g c)
  /\ (forall c', c' <> c -> column (gravity_col k c e g) c' = column g c').
Proof.
  revert e g. induction k as [|row IH]; intros e g Hr Hc.
  - auto.
  - simpl. rewrite (get_nat_column g row c Hr Hc).
    destruct (column g c !! row) as [[a|]|] eqn:Ha.
    + destruct (decide (row = e)) as [<-|Hne].
      * now apply IH.
      * set (g' := set_nat (set_nat g e c (Some a)) row c None).
        assert (Hr' : rectangular g' w)
          by (apply rectangular_set_nat, rectangular_set_nat, Hr).
        destruct (IH (e - 1)%nat g' Hr' Hc) as (H1 & H2 & H3 & H4).
        split; [exact H1|]. split.
        { rewrite H2. unfold g'. now rewrite !length_set_nat. }
        split.
        { rewrite H3. unfold g'.
          rewrite column_set_nat_same, column_set_nat_same; auto.
          apply rectangular_set_nat, Hr. }
        intros c' Hc'. rewrite H4 by exact Hc'. unfold g'.
        rewrite !column_set_nat_other; auto.
    + now apply IH.
    + destruct (decide (row = e)) as [<-|Hne].
      * now apply IH.
      * set (g' := set_nat (set_nat g e c None) row c None).
        assert (Hr' : rectangular g' w)
          by (apply rectangular_set_nat, rectangular_set_nat, Hr).
        destruct (IH (e - 1)%nat g' Hr' Hc) as (H1 & H2 & H3 & H4).
        split; [exact H1|]. split.
        { rewrite H2. unfold g'. now rewrite !length_set_nat. }
        split.
        { rewrite H3. unfold g'.
          rewrite column_set_nat_same, column_set_nat_same; auto.
          apply rectangular_set_nat, Hr. }
        intros c' Hc'. rewrite H4 by exact Hc'. unfold g'.
        rewrite !column_set_nat_other; auto.
Qed.

End Columns.

(** ** The inner loop compacts its column *)

Lemma repeat_snoc (m : nat) : repeat (None : PuyoColor) (S m) = repeat None m ++ [None].
Proof. induction m as [|m IH]; [reflexivity|]. simpl in *. now rewrite IH. Qed.

(** Loop invariant: with [k] rows left and [m] empty cells found so far,
    the column is the unvisited prefix, then [m] empty cells, then the
    colours seen so far in order; [emptyRow] is [k + m - 1]. *)
Lemma gravity_col_list_inv (l0 : list PuyoColor) (k m : nat) (cur : list PuyoColor) :
  (k <= length l0)%nat ->
  cur = take k l0 ++ repeat None m ++ List.filter occupied (drop k l0) ->
  length cur = length l0 ->
  gravity_col_list k (k + m - 1)%nat cur = compact l0.
Proof.
  revert m cur. induction k as [|k IH]; intros m cur Hk Hcur Hlen.
  - simpl. subst cur. simpl in Hlen |- *.
    rewrite length_app, repeat_length in Hlen. unfold compact.
    rewrite drop_0 in Hlen |- *. f_equal. f_equal. lia.
  - replace (S k + m - 1)%nat with (k + m)%nat by lia.
    cbn [gravity_col_list].
    destruct (lookup_lt_is_Some_2 l0 k) as [a Ha]; [lia|].
    assert (Htk : length (take k l0) = k) by (rewrite length_take; lia).
    assert (Hck : cur !! k = Some a).
    { subst cur. rewrite lookup_app_l by (rewrite length_take; lia).
      rewrite lookup_take. rewrite decide_True by lia. exact Ha. }
    rewrite Hck.
    rewrite (take_S_r _ _ _ Ha) in Hcur.
    destruct a as [cc|].
    + cbn [default].
      destruct (decide (k = k + m)%nat) as [Heq|Hne].
      * assert (m = 0%nat) by lia. subst m.
        apply IH; [lia| |exact Hlen].
        rewrite Hcur, (drop_S _ _ _ Ha). simpl. now rewrite <- app_assoc.
      * destruct m as [|m']; [lia|].
        apply IH; [lia| |now rewrite !length_insert].
        rewrite (drop_S _ _ _ Ha). simpl List.filter.
        assert (Hc2 : cur = (take k l0 ++ Some cc :: repeat None m') ++ [None]
                            ++ List.filter occupied (drop (S k) l0)).
        { rewrite Hcur, repeat_snoc. now rewrite <- !app_assoc. }
        rewrite Hc2.
        rewrite insert_app_r_alt by (rewrite length_app; simpl; rewrite repeat_length; lia).
        rewrite length_app, Htk. simpl length. rewrite repeat_length.
        replace (k + S m' - (k + S m'))%nat with 0%nat by lia.
        rewrite insert_app_l by (rewrite length_app; simpl; lia).
        rewrite insert_app_r_alt by lia. rewrite Htk, Nat.sub_diag.
        simpl. now rewrite <- !app_assoc.
    + replace (k + m)%nat with (k + S m - 1)%nat by lia.
      apply IH; [lia| |exact Hlen].
      rewrite Hcur, (drop_S _ _ _ Ha). simpl. now rewrite <- !app_assoc.
Qed.

Lemma gravity_col_list_compact (l : list PuyoColor) :
  gravity_col_list (length l) (length l - 1)%nat l = compact l.
Proof.
  replace (length l - 1)%nat with (length l + 0 - 1)%nat by lia.
  apply gravity_col_list_inv; [lia| |reflexivity].
  rewrite take_ge by lia. rewrite drop_ge by lia. simpl.
  now rewrite app_nil_r.
Qed.

(** ** The outer loop *)

Lemma gravity_fold (w h : nat) (cs : list nat) (g : Grid) :
  rectangular g w -> length g = h -> NoDup cs -> Forall (fun c => (c < w)%nat) cs ->
  let g' := fold_left (fun gr col => gravity_col h col (h - 1)%nat gr) cs g in
  rectangular g' w /\ length g' = h
  /\ forall c, column g' c = if decide (c ∈ cs) then compact (column g c) else column g c.
Proof.
  revert g. induction cs as [|c0 cs IH]; intros g Hr Hh Hnd Hcs.
  - cbn [fold_left]. split; [exact Hr|]. split; [exact Hh|].
    intros c. rewrite decide_False; [reflexivity|]. apply not_elem_of_nil.
  - cbn [fold_left]. apply NoDup_cons in Hnd as [Hn0 Hnd].
    apply Forall_cons in Hcs as [Hc0 Hcs].
    destruct (gravity_col_column w h c0 (h - 1) g Hr Hc0) as (H1 & H2 & H3 & H4).
    destruct (IH _ H1 (eq_trans H2 Hh) Hnd Hcs) as (I1 & I2 & I3).
    split; [exact I1|]. split; [exact I2|].
    intros c. rewrite I3.
    destruct (decide (c = c0)) as [->|Hne].
    + rewrite decide_False by exact Hn0.
      rewrite decide_True by (left).
      rewrite H3. rewrite <- Hh, <- (length_column g c0).
      apply gravity_col_list_compact.
    + rewrite H4 by exact Hne.
      destruct (decide (c ∈ cs)) as [Hi|Hi].
      * rewrite decide_True by (right; exact Hi). reflexivity.
      * rewrite decide_False; [reflexivity|].
        intros Hi'. apply elem_of_cons in Hi' as [?|?]; contradiction.
Qed.

Lemma applyGravity_columns (g : Grid) (w : nat) :
  rectangular g w ->
  rectangular (applyGravity g) w /\ length (applyGravity g) = length g
  /\ forall c, (c < w)%nat -> column (applyGravity g) c = compact (column g c).
Proof.
  intros Hr. destruct g as [|row0 rows] eqn:Hg.
  - split; [exact Hr|]. split; [reflexivity|]. intros c _. reflexivity.
  - rewrite <- Hg. rewrite <- Hg in Hr.
    assert (Hw : length row0 = w).
    { apply (rectangular_lookup w g 0); [exact Hr|]. now rewrite Hg. }
    assert (Happ : applyGravity g =
              fold_left (fun gr col => gravity_col (length g) col (length g - 1)%nat gr)
                (seq 0 w) g).
    { unfold applyGravity. rewrite Hg at 1. now rewrite Hw. }
    destruct (gravity_fold w (length g) (seq 0 w) g Hr eq_refl (NoDup_seq 0 w))
      as (H1 & H2 & H3).
    { apply Forall_forall. intros c Hc.
      apply elem_of_seq in Hc. lia. }
    rewrite Happ. split; [exact H1|]. split; [exact H2|].
    intros c Hc. rewrite H3. rewrite decide_True; [reflexivity|].
    apply elem_of_seq. lia.
Qed.

(** ** Compaction and counting *)

Lemma filter_repeat_None (m : nat) :
  List.filter occupied (repeat None m) = [].
Proof. induction m; simpl; auto. Qed.

Lemma filter_occupied_idem (l : list PuyoColor) :
  List.filter occupied (List.filter occupied l) = List.filter occupied l.
Proof.
  induction l as [|a l IH]; [reflexivity|].
  destruct a; simpl; [now rewrite IH|exact IH].
Qed.

Lemma filter_compact (l : list PuyoColor) :
  List.filter occupied (compact l) = List.filter occupied l.
Proof.
  unfold compact. rewrite List.filter_app, filter_repeat_None. simpl.
  apply filter_occupied_idem.
Qed.

Lemma length_compact (l : list PuyoColor) : length (compact l) = length l.
Proof.
  unfold compact. rewrite length_app, repeat_length.
  pose proof (filter_length_le occupied l). lia.
Qed.

Lemma compact_idem (l : list PuyoColor) : compact (compact l) = compact l.
Proof.
  unfold compact at 1. rewrite filter_compact, length_compact. reflexivity.
Qed.

Lemma sum_list_with_seq_S (f : nat -> nat) (s n : nat) :
  sum_list_with f (seq (S s) n) = sum_list_with (fun c => f (S c)) (seq s n).
Proof.
  revert s. induction n as [|n IH]; intros s; [reflexivity|].
  simpl. now rewrite IH.
Qed.

Lemma sum_list_with_plus (f h : nat -> nat) (l : list nat) :
  sum_list_with (fun c => f c + h c)%nat l = (sum_list_with f l + sum_list_with h l)%nat.
Proof. induction l as [|a l IH]; simpl; [reflexivity|]. rewrite IH. lia. Qed.

Lemma sum_list_with_ext (f h : nat -> nat) (l : list nat) :
  (forall c, c ∈ l -> f c = h c) -> sum_list_with f l = sum_list_with h l.
Proof.
  intros E. induction l as [|a l IH]; simpl; [reflexivity|].
  rewrite E by left. rewrite IH; [reflexivity|]. intros c Hc. apply E. now right.
Qed.

Lemma sum_list_with_zero (l : list nat) : sum_list_with (fun _ => 0%nat) l = 0%nat.
Proof. induction l; simpl; auto. Qed.

Lemma count_row (row : list PuyoColor) :
  sum_list_with (fun c => occ_nat (default None (row !! c))) (seq 0 (length row))
  = length (List.filter occupied row).
Proof.
  induction row as [|a row IH]; [reflexivity|].
  cbn [length seq sum_list_with]. rewrite sum_list_with_seq_S.
  simpl. rewrite IH. destruct a; reflexivity.
Qed.

Lemma count_by_columns (g : Grid) (w : nat) :
  rectangular g w ->
  count_nonempty g = sum_list_with (fun c => length (List.filter occupied (column g c))) (seq 0 w).
Proof.
  induction g as [|row g IH]; intros Hr.
  - simpl. symmetry. apply sum_list_with_zero.
  - apply Forall_cons in Hr as [Hrow Hr].
    unfold count_nonempty in *. cbn [sum_list_with]. rewrite IH by exact Hr.
    rewrite <- Hrow at 2. rewrite <- count_row, Hrow, <- sum_list_with_plus.
    apply sum_list_with_ext. intros c _.
    unfold column. cbn [fmap list_fmap]. simpl.
    destruct (default None (row !! c)); reflexivity.
Qed.

(** Rectangular grids of the same height and width with the same columns
    are equal. *)
Lemma grid_ext_columns (g1 g2 : Grid) (w : nat) :
  rectangular g1 w -> rectangular g2 w -> length g1 = length g2 ->
  (forall c, (c < w)%nat -> column g1 c = column g2 c) -> g1 = g2.
Proof.
  intros R1 R2 Hl Hc. apply grid_ext_cells.
  - apply list_eq. intros i. rewrite !list_lookup_fmap.
    destruct (g1 !! i) as [r1|] eqn:E1, (g2 !! i) as [r2|] eqn:E2; simpl.
    + now rewrite (rectangular_lookup w _ _ _ R1 E1), (rectangular_lookup w _ _ _ R2 E2).
    + apply lookup_lt_Some in E1. apply lookup_ge_None in E2. lia.
    + apply lookup_lt_Some in E2. apply lookup_ge_None in E1. lia.
    + reflexivity.
  - intros yy xx. rewrite !cell_at_get_nat. destruct (_ && _); [|reflexivity].
    destruct (decide (Z.to_nat xx < w)%nat) as [Hx|Hx].
    + rewrite (get_nat_column w g1 _ _ R1 Hx), (get_nat_column w g2 _ _ R2 Hx).
      now rewrite Hc.
    + unfold get_nat.
      destruct (g1 !! Z.to_nat yy) as [r1|] eqn:E1, (g2 !! Z.to_nat yy) as [r2|] eqn:E2;
        simpl; try reflexivity.
      * pose proof (rectangular_lookup w _ _ _ R1 E1).
        pose proof (rectangular_lookup w _ _ _ R2 E2).
        rewrite !lookup_ge_None_2 by lia. reflexivity.
      * pose proof (rectangular_lookup w _ _ _ R1 E1).
        rewrite lookup_ge_None_2 by lia. reflexivity.
      * pose proof (rectangular_lookup w _ _ _ R2 E2).
        rewrite lookup_ge_None_2 by lia. reflexivity.
Qed.

(** ** C7 *)

(** Claim C7: on a grid whose rows all have [w] cells, [applyGravity]
    keeps the shape and turns every column into its stable compaction
    towards the bottom: the colours keep their top-to-bottom order and
    end at the highest row indices, the cells above them are empty.  So
    the colours of each column, and the number of non-empty cells, are
    unchanged. *)
Theorem applyGravity_compacts_columns (g : Grid) (w : nat) (Hrect : rectangular g w) :
  length (applyGravity g) = length g
  /\ rectangular (applyGravity g) w
  /\ (forall c, (c < w)%nat -> column (applyGravity g) c = compact (column g c))
  /\ (forall c, (c < w)%nat ->
        List.filter occupied (column (applyGravity g) c) = List.filter occupied (column g c))
  /\ count_nonempty (applyGravity g) = count_nonempty g.
Proof.
  destruct (applyGravity_columns g w Hrect) as (H1 & H2 & H3).
  split; [exact H2|]. split; [exact H1|]. split; [exact H3|].
  split.
  - intros c Hc. rewrite H3 by exact Hc. apply filter_compact.
  - rewrite (count_by_columns _ w H1), (count_by_columns _ w Hrect).
    apply sum_list_with_ext. intros c Hc.
    apply elem_of_seq in Hc. rewrite H3 by lia. now rewrite filter_compact.
Qed.

Lemma rectangular_board_floating : rectangular board_floating 6.
Proof. unfold rectangular. repeat constructor. Qed.

Lemma applyGravity_compacts_columns_witness :
  rectangular board_floating 6
  /\ column (applyGravity board_floating) 0 = compact (column board_floating 0)
  /\ column (applyGravity board_floating) 0
     = [None; None; None; None; None; None; None; None; None; None; R; G].
Proof.
  split; [exact rectangular_board_floating|]. split.
  - exact (proj1 (proj2 (proj2 (applyGravity_compacts_columns board_floating 6
                                  rectangular_board_floating))) 0%nat ltac:(lia)).
  - vm_compute. reflexivity.
Defined.

(** ** C8 *)

(** Claim C8: on a grid whose rows all have the same length,
    [applyGravity] is idempotent. *)
Theorem applyGravity_idempotent (g : Grid) (w : nat) (Hrect : rectangular g w) :
  applyGravity (applyGravity g) = applyGravity g.
Proof.
  destruct (applyGravity_columns g w Hrect) as (H1 & H2 & H3).
  destruct (applyGravity_columns _ w H1) as (K1 & K2 & K3).
  apply (grid_ext_columns _ _ w K1 H1 K2).
  intros c Hc. rewrite K3, H3 by exact Hc. apply compact_idem.
Qed.

Lemma applyGravity_idempotent_witness :
  rectangular board_floating 6
  /\ applyGravity (applyGravity board_floating) = applyGravity board_floating.
Proof.
  split; [exact rectangular_board_floating|].
  exact (applyGravity_idempotent board_floating 6 rectangular_board_floating).
Defined.

(** * The component as a whole *)

Lemma grid_ok_shape (g g' : Grid) :
  length <$> g' = length <$> g -> grid_ok g -> grid_ok g'.
Proof.
  intros Hm [Hl Hr]. split.
  - rewrite <- Hl. rewrite <- (length_fmap length g'), <- (length_fmap length g), Hm. reflexivity.
  - apply Forall_lookup. intros i row' Hi.
    assert (Hf : (length <$> g') !! i = Some (length row')) by (now rewrite list_lookup_fmap, Hi).
    rewrite Hm, list_lookup_fmap in Hf.
    destruct (g !! i) as [row|] eqn:E; simpl in Hf; [|discriminate].
    injection Hf as <-. exact (Forall_lookup_1 _ _ _ _ Hr E).
Qed.

Lemma grid_ok_set_cell (g : Grid) (yy xx : Z) (v : PuyoColor) :
  grid_ok g -> grid_ok (set_cell g yy xx v).
Proof. apply grid_ok_shape, shape_set_cell. Qed.

Lemma grid_ok_removeMatchedPuyos (g : Grid) (ms : list (Z * Z)) :
  grid_ok g -> grid_ok (removeMatchedPuyos g ms).
Proof. apply grid_ok_shape, shape_removeMatchedPuyos. Qed.

Lemma grid_ok_applyGravity (g : Grid) : grid_ok g -> grid_ok (applyGravity g).
Proof.
  intros [Hl Hr]. destruct (applyGravity_columns g 6 Hr) as (H1 & H2 & _).
  split; [now rewrite H2|exact H1].
Qed.

Lemma grid_ok_createEmptyGrid : grid_ok createEmptyGrid.
Proof. split; [reflexivity|]. unfold rectangular. vm_compute. repeat constructor. Qed.

Lemma obj_ok (w : World) (i : nat) :
  Forall grid_ok (objs w) -> (i < length (objs w))%nat -> grid_ok (obj w i).
Proof.
  intros Hf Hi. unfold obj. destruct (lookup_lt_is_Some_2 _ _ Hi) as [g Hg].
  rewrite Hg. exact (Forall_lookup_1 _ _ _ _ Hf Hg).
Qed.

Lemma obj_alloc_old (w : World) (g : Grid) (i : nat) :
  (i < length (objs w))%nat -> obj (alloc w g).1 i = obj w i.
Proof. intros Hi. unfold obj, alloc; simpl. now rewrite lookup_app_l. Qed.

Lemma obj_alloc_new (w : World) (g : Grid) : obj (alloc w g).1 (alloc w g).2 = g.
Proof. unfold obj, alloc; simpl. now rewrite lookup_app_r, Nat.sub_diag. Qed.

Lemma isValidMove_lock (g : Grid) (p : PuyoPair) :
  isValidMove g p = true -> lock_in_bounds p = true.
Proof.
  unfold isValidMove, lock_in_bounds. destruct (getSecondPuyoPosition _ _ _).
  destruct (in_bounds (x p) (y p)), (in_bounds _ _); simpl; auto.
Qed.

Lemma at_spawn_generatePuyoPair (c1 c2 : Color) : at_spawn (generatePuyoPair c1 c2).
Proof. repeat split. Qed.

(** Changing only the hooks other than [grid]. *)
Lemma world_inv_set_ui (w : World) (s : State) :
  world_inv w ->
  grid s = grid (ui w) ->
  gameState s <> pause ->
  (gameState s <> title -> is_Some (currentPuyo s) /\ length (nextPuyos s) = 3%nat) ->
  Forall at_spawn (nextPuyos s) ->
  (forall p, currentPuyo s = Some p -> lock_in_bounds p = true \/ at_spawn p) ->
  0 <= score s ->
  world_inv (set_ui w s).
Proof.
  intros [] Hg Hp Hs Hq Hc Hsc. constructor; simpl; auto.
  now rewrite Hg.
Qed.

Lemma world_inv_isChaining (w : World) (b : bool) :
  world_inv w -> world_inv (set_ui w (set_isChaining (ui w) b)).
Proof. intros Hw. apply world_inv_set_ui; try apply Hw; reflexivity. Qed.

Lemma world_inv_chainCounter (w : World) (n : Z) :
  world_inv w -> world_inv (set_ui w (set_chainCounter (ui w) n)).
Proof. intros Hw. apply world_inv_set_ui; try apply Hw; reflexivity. Qed.

Lemma world_inv_setGrid (w : World) (i : nat) :
  world_inv w -> (i < length (objs w))%nat -> world_inv (setGrid w i).
Proof.
  intros [] Hi. constructor; simpl; auto.
Qed.

Lemma world_inv_alloc (w : World) (g : Grid) :
  world_inv w -> grid_ok g -> world_inv (alloc w g).1.
Proof.
  intros [Ho Hr Hs Hp Hnp Hst Hq Hc Hsc] Hg. unfold alloc. constructor; simpl; auto.
  - apply Forall_app_2; auto.
  - rewrite length_app; simpl; lia.
  - unfold obj; simpl. rewrite lookup_app_l by exact Hr. exact Hs.
  - eapply Forall_impl; [exact Hp|]. intros c [? ?].
    rewrite length_app; simpl; split; [lia|assumption].
Qed.

Lemma world_inv_schedule (w : World) (c : ChainStep) :
  world_inv w -> (chain_ref c < length (objs w))%nat -> 0 <= chain_count c ->
  world_inv (schedule w c).
Proof.
  intros [] Hr Hc. unfold schedule. constructor; simpl; auto.
  apply Forall_app_2; auto.
Qed.

(** The first part of [animateChain] keeps the hooks it does not set. *)
Lemma chain_call_spec (w w' : World) (g : nat) (cc : Z) :
  chain_call w g cc = Some w' ->
  objs w' = objs w /\ highScore w' = highScore w
  /\ gameState (ui w') = gameState (ui w) /\ score (ui w') = score (ui w)
  /\ currentPuyo (ui w') = currentPuyo (ui w) /\ nextPuyos (ui w') = nextPuyos (ui w)
  /\ isPaused (ui w') = isPaused (ui w)
  /\ ((gridRef w' = gridRef w /\ grid (ui w') = grid (ui w))
      \/ (gridRef w' = g /\ grid (ui w') = obj w g))
  /\ (exists ps, pending w' = pending w ++ ps
        /\ Forall (fun c => chain_ref c = g /\ chain_count c = cc) ps).
Proof.
  unfold chain_call. destruct (findMatches _) as [m|]; simpl; [|discriminate].
  destruct (0 <? length m)%nat; intros [= <-]; simpl;
    repeat split; auto.
  - exists [AfterShow g m cc]. split; [reflexivity|]. repeat constructor.
  - exists []. rewrite app_nil_r. split; [reflexivity|constructor].
Qed.

Lemma chain_call_inv (w w' : World) (g : nat) (cc : Z) :
  world_inv w -> (g < length (objs w))%nat -> 0 <= cc ->
  chain_call w g cc = Some w' -> world_inv w'.
Proof.
  intros Hw Hg Hcc Hc.
  destruct (chain_call_spec _ _ _ _ Hc)
    as (Ho & _ & Hgs & Hsc & Hcur & Hnx & _ & Href & ps & Hpd & Hps).
  destruct Hw as [Wo Wr Ws Wp Wnp Wst Wq Wc Wsc].
  constructor; rewrite ?Ho, ?Hgs, ?Hsc, ?Hcur, ?Hnx; auto.
  - destruct Href as [[-> _]|[-> _]]; assumption.
  - destruct Href as [[-> ->]|[-> ->]]; unfold obj in *; rewrite Ho; [exact Ws|reflexivity].
  - rewrite Hpd. apply Forall_app_2; [assumption|].
    eapply Forall_impl; [exact Hps|]. intros c [-> ->]. auto.
Qed.

Lemma alloc_spec (w w1 : World) (g : Grid) (i : nat) :
  alloc w g = (w1, i) ->
  objs w1 = objs w ++ [g] /\ i = length (objs w) /\ ui w1 = ui w
  /\ gridRef w1 = gridRef w /\ pending w1 = pending w /\ highScore w1 = highScore w.
Proof. intros [= <- <-]. simpl. repeat split. Qed.

Lemma world_inv_alloc' (w w1 : World) (g : Grid) (i : nat) :
  world_inv w -> grid_ok g -> alloc w g = (w1, i) ->
  world_inv w1 /\ (i < length (objs w1))%nat /\ obj w1 i = g.
Proof.
  intros Hw Hg Ha.
  pose proof (world_inv_alloc w g Hw Hg) as H1. rewrite Ha in H1.
  pose proof (obj_alloc_new w g) as H2. rewrite Ha in H2.
  destruct (alloc_spec _ _ _ _ Ha) as (Ho & -> & _).
  split; [exact H1|]. split; [rewrite Ho, length_app; simpl; lia|exact H2].
Qed.

Lemma world_inv_delete (w : World) (i : nat) :
  world_inv w -> world_inv (set_pending w (delete i (pending w))).
Proof.
  intros [Wo Wr Ws Wp Wnp Wst Wq Wc Wsc]. constructor; simpl; auto.
  now apply Forall_delete.
Qed.

Lemma resume_chain_inv (w w' : World) (c : ChainStep) :
  world_inv w -> (chain_ref c < length (objs w))%nat -> 0 <= chain_count c ->
  resume_chain w c = Some w' -> world_inv w'.
Proof.
  intros Hw Hr Hcc. destruct c as [g m cc|g cc|g cc]; cbn [chain_ref chain_count] in *;
    unfold resume_chain.
  - destruct (alloc w (removeMatchedPuyos (obj w g) m)) as [w1 ng] eqn:Ea.
    destruct (world_inv_alloc' _ _ _ _ Hw (grid_ok_removeMatchedPuyos _ m (obj_ok _ _ (inv_objs _ Hw) Hr)) Ea)
      as (H1 & Hng & _).
    intros [= <-]. apply world_inv_schedule; simpl; [|exact Hng|exact Hcc].
    pose proof (world_inv_setGrid _ _ H1 Hng) as H2.
    apply world_inv_set_ui; try apply H2; simpl; try reflexivity.
    pose proof (inv_score _ H2). simpl in *. nia.
  - destruct (alloc w (applyGravity (obj w g))) as [w1 ng] eqn:Ea.
    destruct (world_inv_alloc' _ _ _ _ Hw (grid_ok_applyGravity _ (obj_ok _ _ (inv_objs _ Hw) Hr)) Ea)
      as (H1 & Hng & _).
    intros [= <-]. apply world_inv_schedule; simpl; [|exact Hng|exact Hcc].
    exact (world_inv_setGrid _ _ H1 Hng).
  - apply chain_call_inv; auto. lia.
Qed.

Lemma chain_timer_inv (w w' : World) (i : nat) :
  world_inv w -> chain_timer w i = Some w' -> world_inv w'.
Proof.
  intros Hw. unfold chain_timer. destruct (pending w !! i) as [c|] eqn:Ec.
  - pose proof (Forall_lookup_1 _ _ _ _ (inv_pending _ Hw) Ec) as [Hr Hc].
    apply resume_chain_inv; [apply world_inv_delete, Hw|exact Hr|exact Hc].
  - now intros [= <-].
Qed.

Lemma can_act_active (s : State) : can_act s = true -> gameState s = active.
Proof.
  unfold can_act, is_active. destruct (gameState s); simpl; congruence.
Qed.

Lemma w_placePuyo_inv (w w' : World) (fresh : PuyoPair) :
  world_inv w -> gameState (ui w) = active -> at_spawn fresh ->
  w_placePuyo w fresh = Some w' -> world_inv w'.
Proof.
  intros Hw Hact Hf. unfold w_placePuyo.
  destruct (currentPuyo (ui w)) as [cur|] eqn:Ecur; [|now intros [= <-]].
  destruct (lock_in_bounds cur) eqn:Hlock; cbn [negb].
  2:{ intros [= <-]. apply world_inv_set_ui; try apply Hw; simpl; try reflexivity.
      - discriminate.
      - intros _. split; [now rewrite Ecur|]. apply (inv_started _ Hw). now rewrite Hact. }
  destruct (getSecondPuyoPosition (x cur) (y cur) (rotation cur)) as [x2 y2].
  set (written := set_cell (set_cell _ _ _ _) _ _ _).
  assert (Hwr : grid_ok written).
  { apply grid_ok_set_cell, grid_ok_set_cell, obj_ok; [apply Hw|apply Hw]. }
  set (w1 := set_objs w (<[gridRef w := written]> (objs w))).
  destruct (alloc w1 (applyGravity written)) as [w2 ng] eqn:Ea.
  destruct (alloc_spec _ _ _ _ Ea) as (Ho2 & Hng & Hui2 & Hr2 & Hp2 & _). simpl in *.
  destruct (chain_call _ _ _) as [w5|] eqn:Ec; simpl; [|discriminate].
  intros [= <-].
  destruct (chain_call_spec _ _ _ _ Ec)
    as (Ho & _ & Hgs & Hsc & Hcur & Hnx & _ & Href & ps & Hpd & Hps).
  simpl in *. rewrite Hui2 in *.
  assert (Hnt : gameState (ui w) <> title) by (rewrite Hact; discriminate).
  destruct (inv_started _ Hw Hnt) as [_ Hlen].
  pose proof (inv_queue _ Hw) as Hq.
  destruct Hw as [Wo Wr Ws Wp Wnp Wst Wq Wc Wsc].
  assert (Hlt : (ng < length (objs w5))%nat).
  { rewrite Ho, Ho2, Hng, length_app, !length_insert. simpl. lia. }
  constructor; simpl.
  - rewrite Ho, Ho2. apply Forall_app_2; [apply Forall_insert; auto|].
    constructor; [apply grid_ok_applyGravity, Hwr|constructor].
  - destruct Href as [[-> _]|[-> _]]; exact Hlt.
  - unfold obj in *. simpl. rewrite Ho in *.
    destruct Href as [[-> ->]|[-> ->]]; simpl; reflexivity.
  - rewrite Hpd, Hp2. apply Forall_app_2.
    + eapply Forall_impl; [exact Wp|]. intros c [? ?]. split; [|assumption].
      rewrite Ho, Ho2, length_app, length_insert. simpl. lia.
    + eapply Forall_impl; [exact Hps|]. intros c [-> ->]. split; [exact Hlt|lia].
  - now rewrite Hgs, Hact.
  - intros _. destruct (nextPuyos (ui w)) as [|p rest]; simpl in *; [lia|].
    split; [eauto|rewrite length_app; simpl; lia].
  - apply Forall_app_2; [now apply Forall_tail|repeat constructor; apply Hf].
  - intros p. destruct (nextPuyos (ui w)) as [|q rest]; simpl; [discriminate|].
    intros [= <-]. right. now apply Forall_cons in Hq as [? _].
  - now rewrite Hsc.
Qed.

Lemma set_ui_ui (w : World) : set_ui w (ui w) = w.
Proof. now destruct w. Qed.

Lemma w_movePuyo_inv (w w' : World) (d : MoveDir) (fresh : PuyoPair) :
  world_inv w -> at_spawn fresh -> w_movePuyo w d fresh = Some w' -> world_inv w'.
Proof.
  intros Hw Hf. unfold w_movePuyo.
  destruct (currentPuyo (ui w)) as [cur|] eqn:Ecur; [|now intros [= <-]].
  destruct (can_act (ui w)) eqn:Hact; cbn [negb]; [|now intros [= <-]].
  destruct (isValidMove (grid (ui w)) (move_target cur d)) eqn:Hv.
  - intros [= <-]. apply world_inv_set_ui; try apply Hw; simpl; try reflexivity.
    + intros _. split; [eauto|]. apply (inv_started _ Hw).
      rewrite (can_act_active _ Hact). discriminate.
    + intros p [= <-]. left. exact (isValidMove_lock _ _ Hv).
  - destruct d; try (now intros [= <-]).
    apply w_placePuyo_inv; auto. exact (can_act_active _ Hact).
Qed.

Lemma rotatePuyo_inv (w : World) (d : RotDir) :
  world_inv w -> world_inv (set_ui w (rotatePuyo (ui w) d)).
Proof.
  intros Hw. unfold rotatePuyo.
  destruct (currentPuyo (ui w)) as [cur|] eqn:Ecur; [|now rewrite set_ui_ui].
  destruct (can_act (ui w)) eqn:Hact; cbn [negb]; [|now rewrite set_ui_ui].
  destruct (isValidMove _ _) eqn:Hv; [|now rewrite set_ui_ui].
  apply world_inv_set_ui; try apply Hw; simpl; try reflexivity.
  + intros _. split; [eauto|]. apply (inv_started _ Hw).
    rewrite (can_act_active _ Hact). discriminate.
  + intros p [= <-]. left. exact (isValidMove_lock _ _ Hv).
Qed.

Lemma holdPuyo_inv (w : World) (fresh : PuyoPair) :
  world_inv w -> at_spawn fresh -> world_inv (set_ui w (holdPuyo (ui w) fresh)).
Proof.
  intros Hw Hf. unfold holdPuyo.
  destruct (currentPuyo (ui w)) as [cur|] eqn:Ecur; [|now rewrite set_ui_ui].
  destruct (negb (canHold (ui w)) || negb (is_active (gameState (ui w))) || isPaused (ui w))
    eqn:Hg; [now rewrite set_ui_ui|].
  assert (Hact : gameState (ui w) = active).
  { destruct (gameState (ui w)); simpl in Hg; try reflexivity;
      rewrite ?orb_true_r in Hg; discriminate. }
  assert (Hnt : gameState (ui w) <> title) by (rewrite Hact; discriminate).
  destruct (inv_started _ Hw Hnt) as [_ Hlen].
  pose proof (inv_queue _ Hw) as Hq.
  destruct (heldPuyo (ui w)) as [h|].
  - apply world_inv_set_ui; try apply Hw; simpl; try reflexivity.
    + intros _. split; [eauto|exact Hlen].
    + intros p [= <-]. right. repeat split.
  - apply world_inv_set_ui; try apply Hw; simpl; try reflexivity.
    + intros _. destruct (nextPuyos (ui w)) as [|p rest]; simpl in *; [lia|].
      split; [eauto|rewrite length_app; simpl; lia].
    + apply Forall_app_2; [now apply Forall_tail|repeat constructor; apply Hf].
    + intros p. destruct (nextPuyos (ui w)) as [|q rest]; simpl; [discriminate|].
      intros [= <-]. right. now apply Forall_cons in Hq as [? _].
Qed.

Lemma togglePause_inv (w : World) : world_inv w -> world_inv (togglePause w).
Proof. intros Hw. apply world_inv_set_ui; try apply Hw; reflexivity. Qed.

Lemma w_startGame_inv (w : World) (c1 c2 c3 c4 : Color * Color) :
  world_inv w ->
  world_inv (w_startGame w (pair_of c1) (pair_of c2) (pair_of c3) (pair_of c4)).
Proof.
  intros Hw. unfold w_startGame.
  destruct (alloc w createEmptyGrid) as [w1 g] eqn:Ea.
  destruct (world_inv_alloc' _ _ _ _ Hw grid_ok_createEmptyGrid Ea) as (H1 & Hg & Ho).
  pose proof (world_inv_setGrid _ _ H1 Hg) as H2.
  apply world_inv_set_ui; try apply H2; simpl.
  - now rewrite Ho.
  - discriminate.
  - intros _. split; [eauto|reflexivity].
  - repeat constructor.
  - intros p [= <-]. right. repeat split.
  - lia.
Qed.

Lemma handleKeyPress_inv (w w' : World) (key : string) (fresh : PuyoPair) :
  world_inv w -> at_spawn fresh -> handleKeyPress w key fresh = Some w' -> world_inv w'.
Proof.
  intros Hw Hf. unfold handleKeyPress.
  assert (Hw1 : world_inv (if String.eqb (toLowerCase key) "escape" then togglePause w else w)).
  { destruct (String.eqb _ _); [apply togglePause_inv|]; exact Hw. }
  revert Hw1. generalize (if String.eqb (toLowerCase key) "escape" then togglePause w else w).
  intros w1 Hw1.
  destruct (isPaused (ui w)); [now intros [= <-]|].
  repeat match goal with
         | |- context [if String.eqb ?k ?s then _ else _] => destruct (String.eqb k s)
         end;
    try (now intros [= <-]); intros H.
  all: first [ now apply (w_movePuyo_inv _ _ _ _ Hw1 Hf H)
             | injection H as <-; first [ apply rotatePuyo_inv, Hw1 | apply holdPuyo_inv; assumption ] ].
Qed.

Lemma handle_event_inv (w w' : World) (e : Event) :
  world_inv w -> handle_event w e = Some w' -> world_inv w'.
Proof.
  intros Hw. destruct e as [c1 c2 c3 c4| |key a b|a b|i]; simpl.
  - destruct (gameState (ui w)); intros [= <-]; try exact Hw; apply w_startGame_inv, Hw.
  - destruct (isPaused (ui w)); intros [= <-]; [apply togglePause_inv|]; exact Hw.
  - apply handleKeyPress_inv; [exact Hw|apply at_spawn_generatePuyoPair].
  - destruct (can_act (ui w) && negb (isChaining (ui w))); [|now intros [= <-]].
    apply w_movePuyo_inv; [exact Hw|apply at_spawn_generatePuyoPair].
  - apply chain_timer_inv, Hw.
Qed.

Lemma highScore_effect_inv (w : World) :
  world_inv w -> world_inv (highScore_effect w)
  /\ score (ui (highScore_effect w)) = score (ui w)
  /\ Z.max (highScore w) (score (ui w)) = highScore (highScore_effect w).
Proof.
  intros [Wo Wr Ws Wp Wnp Wst Wq Wc Wsc]. unfold highScore_effect.
  destruct (Z.ltb_spec (highScore w) (score (ui w))).
  - split; [constructor; simpl; auto|]. simpl. split; [reflexivity|lia].
  - split; [constructor; auto|]. split; [reflexivity|lia].
Qed.

Lemma rotatePuyo_score (s : State) (d : RotDir) :
  score (rotatePuyo s d) = score s /\ gameState (rotatePuyo s d) = gameState s.
Proof.
  unfold rotatePuyo. destruct (currentPuyo s); [|auto].
  destruct (negb (can_act s)); [auto|]. destruct (isValidMove _ _); auto.
Qed.

Lemma holdPuyo_score (s : State) (f : PuyoPair) :
  score (holdPuyo s f) = score s /\ gameState (holdPuyo s f) = gameState s.
Proof.
  unfold holdPuyo. destruct (currentPuyo s); [|auto].
  destruct (_ || _ || _); [auto|]. destruct (heldPuyo s); auto.
Qed.

Lemma chain_call_score (w w' : World) (g : nat) (cc : Z) :
  chain_call w g cc = Some w' ->
  highScore w' = highScore w /\ score (ui w) <= score (ui w')
  /\ gameState (ui w') = gameState (ui w).
Proof.
  intros H. destruct (chain_call_spec _ _ _ _ H) as (_ & Hh & Hg & Hs & _).
  rewrite Hh, Hs, Hg. auto with zarith.
Qed.

Lemma chain_timer_score (w w' : World) (i : nat) :
  world_inv w -> chain_timer w i = Some w' ->
  highScore w' = highScore w /\ score (ui w) <= score (ui w')
  /\ gameState (ui w') = gameState (ui w).
Proof.
  intros Hw. unfold chain_timer. destruct (pending w !! i) as [c|] eqn:Ec.
  2:{ intros [= <-]. auto with zarith. }
  pose proof (Forall_lookup_1 _ _ _ _ (inv_pending _ Hw) Ec) as [_ Hc].
  destruct c as [g m cc|g cc|g cc]; simpl in *.
  - intros [= <-]. simpl. repeat split. nia.
  - intros [= <-]. simpl. auto with zarith.
  - intros H. destruct (chain_call_score _ _ _ _ H) as (? & ? & ?). simpl in *. auto.
Qed.

(** [placePuyo] keeps the score and the high score; it ends the game only
    in its bounds check, and then changes nothing else. *)
Lemma w_placePuyo_score (w w' : World) (fresh : PuyoPair) :
  w_placePuyo w fresh = Some w' ->
  highScore w' = highScore w /\ score (ui w) = score (ui w')
  /\ (gameState (ui w') = gameState (ui w)
      \/ exists cur, currentPuyo (ui w) = Some cur /\ lock_in_bounds cur = false
          /\ w' = set_ui w (set_gameState (ui w) over)).
Proof.
  unfold w_placePuyo.
  destruct (currentPuyo (ui w)) as [cur|] eqn:Ecur; [|intros [= <-]; auto].
  destruct (lock_in_bounds cur) eqn:Hlock; cbn [negb].
  2:{ intros [= <-]. simpl. split; [reflexivity|]. split; [reflexivity|].
      right. eauto. }
  destruct (getSecondPuyoPosition (x cur) (y cur) (rotation cur)) as [x2 y2].
  simpl. destruct (chain_call _ _ _) as [w5|] eqn:Ec; simpl; [|discriminate].
  intros [= <-]. destruct (chain_call_spec _ _ _ _ Ec) as (_ & Hh & Hg & Hs & _).
  simpl in *. rewrite Hh, Hs, Hg. auto.
Qed.

Lemma w_movePuyo_score (w w' : World) (d : MoveDir) (fresh : PuyoPair) :
  w_movePuyo w d fresh = Some w' ->
  highScore w' = highScore w /\ score (ui w) = score (ui w')
  /\ (gameState (ui w') = gameState (ui w)
      \/ exists cur, currentPuyo (ui w) = Some cur /\ lock_in_bounds cur = false
          /\ w' = set_ui w (set_gameState (ui w) over)).
Proof.
  unfold w_movePuyo.
  destruct (currentPuyo (ui w)) as [cur|] eqn:Ecur; [|intros [= <-]; auto].
  destruct (negb (can_act (ui w))); [intros [= <-]; auto|].
  destruct (isValidMove _ _); [intros [= <-]; simpl; auto|].
  destruct d; [intros [= <-]; auto|intros [= <-]; auto|].
  intros H. destruct (w_placePuyo_score _ _ _ H) as (? & ? & ?). rewrite Ecur in *. auto.
Qed.

Lemma handleKeyPress_score (w w' : World) (key : string) (fresh : PuyoPair) :
  handleKeyPress w key fresh = Some w' ->
  highScore w' = highScore w /\ score (ui w) = score (ui w')
  /\ (gameState (ui w') = gameState (ui w)
      \/ exists cur, currentPuyo (ui w) = Some cur /\ lock_in_bounds cur = false
          /\ w' = set_ui w (set_gameState (ui w) over)).
Proof.
  unfold handleKeyPress.
  destruct (String.eqb (toLowerCase key) "escape") eqn:Esc.
  - destruct (isPaused (ui w)); [intros [= <-]; simpl; auto|].
    rewrite String.eqb_eq in Esc. rewrite Esc. simpl. intros [= <-]. simpl. auto.
  - destruct (isPaused (ui w)); [intros [= <-]; auto|].
    repeat match goal with
           | |- context [if String.eqb ?k ?s then _ else _] => destruct (String.eqb k s)
           end;
      first [ apply w_movePuyo_score
            | intros [= <-]; simpl;
              first [ destruct (rotatePuyo_score (ui w) RotLeft) as [-> ->]
                    | destruct (rotatePuyo_score (ui w) RotRight) as [-> ->]
                    | destruct (holdPuyo_score (ui w) fresh) as [-> ->]
                    | idtac ]; auto ].
Qed.

Lemma handle_event_score (w w' : World) (e : Event) :
  world_inv w -> handle_event w e = Some w' ->
  highScore w' = highScore w
  /\ (score (ui w) <= score (ui w')
      \/ (exists p1 p2 p3 p4, e = StartClick p1 p2 p3 p4) /\ score (ui w') = 0)
  /\ (gameState (ui w') = gameState (ui w)
      \/ (exists p1 p2 p3 p4, e = StartClick p1 p2 p3 p4) /\ gameState (ui w') = active
      \/ exists cur, currentPuyo (ui w) = Some cur /\ lock_in_bounds cur = false
          /\ w' = set_ui w (set_gameState (ui w) over)).
Proof.
  intros Hw. destruct e as [c1 c2 c3 c4| |key a b|a b|i]; simpl.
  - destruct (gameState (ui w)) eqn:Eg; intros [= <-];
      try (split; [reflexivity|]; split; [left; lia|left; auto]; fail).
    all: unfold w_startGame; destruct (alloc w createEmptyGrid) as [w1 g] eqn:Ea;
      destruct (alloc_spec _ _ _ _ Ea) as (_ & _ & _ & _ & _ & Hh);
      simpl; split; [first [reflexivity|exact Hh]|]; split;
      [right; split; [do 4 eexists; reflexivity|reflexivity]
      |right; left; split; [do 4 eexists; reflexivity|reflexivity]].
  - destruct (isPaused (ui w)); intros [= <-]; simpl; auto with zarith.
  - intros H. destruct (handleKeyPress_score _ _ _ _ H) as (? & ? & [?|?]); auto with zarith.
  - destruct (can_act (ui w) && negb (isChaining (ui w))); [|intros [= <-]; auto with zarith].
    intros H. destruct (w_movePuyo_score _ _ _ _ H) as (? & ? & [?|?]); auto with zarith.
  - intros H. destruct (chain_timer_score _ _ _ Hw H) as (? & ? & ?); auto with zarith.
Qed.

Lemma step_inv (w w' : World) (e : Event) :
  world_inv w -> step w e = Some w' ->
  world_inv w' /\ highScore w <= highScore w' /\ score (ui w') <= highScore w'.
Proof.
  intros Hw. unfold step. destruct (handle_event w e) as [w1|] eqn:Eh; simpl; [|discriminate].
  intros [= <-]. pose proof (handle_event_inv _ _ _ Hw Eh) as H1.
  destruct (handle_event_score _ _ _ Hw Eh) as (Hh & _).
  destruct (highScore_effect_inv _ H1) as (H2 & H3 & H4).
  split; [exact H2|]. rewrite H3, <- H4, Hh. lia.
Qed.

Lemma init_world_inv (hs0 : Z) : world_inv (init_world hs0).
Proof.
  constructor; simpl; try solve [lia|reflexivity|discriminate|constructor].
  constructor; [apply grid_ok_createEmptyGrid|constructor].
  intros H. now contradiction H.
Qed.

Lemma reachable_inv (hs0 : Z) (w : World) :
  0 <= hs0 -> reachable hs0 w -> world_inv w /\ score (ui w) <= highScore w.
Proof.
  intros Hhs [es Hrun].
  assert (H0 : world_inv (init_world hs0) /\ score (ui (init_world hs0)) <= highScore (init_world hs0))
    by (split; [apply init_world_inv|simpl; lia]).
  revert Hrun H0. generalize (init_world hs0). induction es as [|e es IH]; intros w0 Hrun H0.
  - simpl in Hrun. injection Hrun as <-. exact H0.
  - simpl in Hrun. destruct (step w0 e) as [w1|] eqn:Es; simpl in Hrun; [|discriminate].
    apply (IH w1 Hrun). destruct (step_inv _ _ _ (proj1 H0) Es) as (? & _ & ?). auto.
Qed.

(** In every world reachable from the mounted component (with a
    non-negative stored high score), the board shown has 12 rows of 6
    cells, and so has every grid a waiting chain pass will work on. *)
Theorem reachable_grid_shape (hs0 : Z) (w : World) (Hhs : 0 <= hs0) (Hr : reachable hs0 w) :
  length (grid (ui w)) = 12%nat /\ rectangular (grid (ui w)) 6
  /\ Forall (fun c => grid_ok (obj w (chain_ref c))) (pending w).
Proof.
  destruct (reachable_inv _ _ Hhs Hr) as [Hw _].
  destruct (obj_ok w (gridRef w) (inv_objs _ Hw) (inv_ref _ Hw)) as [Hl Hrect].
  rewrite (inv_sync _ Hw). split; [exact Hl|]. split; [exact Hrect|].
  eapply Forall_impl; [exact (inv_pending _ Hw)|]. intros c [Hc _].
  exact (obj_ok _ _ (inv_objs _ Hw) Hc).
Qed.

Lemma reachable_grid_shape_witness :
  length (grid (ui column2_world)) = 12%nat /\ rectangular (grid (ui column2_world)) 6
  /\ Forall (fun c => grid_ok (obj column2_world (chain_ref c))) (pending column2_world).
Proof.
  exact (reachable_grid_shape 0 column2_world ltac:(lia) reachable_column2_world).
Defined.

(** In every reachable world the state ['pause'] of [GameState] is never
    taken (pausing only sets [isPaused]); once a game has started there
    is always a current pair and exactly three pairs in the queue; the
    queued pairs all sit at the spawn position (x 2, y 0, rotation 0). *)
Theorem reachable_pairs (hs0 : Z) (w : World) (Hhs : 0 <= hs0) (Hr : reachable hs0 w) :
  gameState (ui w) <> pause
  /\ (gameState (ui w) <> title ->
      is_Some (currentPuyo (ui w)) /\ length (nextPuyos (ui w)) = 3%nat)
  /\ Forall at_spawn (nextPuyos (ui w)).
Proof.
  destruct (reachable_inv _ _ Hhs Hr) as [Hw _].
  split; [apply Hw|]. split; [apply Hw|apply Hw].
Qed.

(** When the high score read back at mount is a non-negative integer (as
    every value the component stores is), in every reachable world the
    score is non-negative and at most the high score. *)
Theorem reachable_score (hs0 : Z) (w : World) (Hhs : 0 <= hs0) (Hr : reachable hs0 w) :
  0 <= score (ui w) <= highScore w.
Proof.
  destruct (reachable_inv _ _ Hhs Hr) as [Hw H]. split; [apply Hw|exact H].
Qed.

(** From a reachable world, no event lowers the high score, and the
    score only decreases when a start click resets it to 0. *)
Theorem score_monotone (hs0 : Z) (w w' : World) (e : Event)
    (Hhs : 0 <= hs0) (Hr : reachable hs0 w) (Hs : step w e = Some w') :
  highScore w <= highScore w'
  /\ (score (ui w) <= score (ui w')
      \/ (exists p1 p2 p3 p4, e = StartClick p1 p2 p3 p4) /\ score (ui w') = 0).
Proof.
  destruct (reachable_inv _ _ Hhs Hr) as [Hw _].
  destruct (step_inv _ _ _ Hw Hs) as (_ & Hh & _). split; [exact Hh|].
  unfold step in Hs. destruct (handle_event w e) as [w1|] eqn:Eh; simpl in Hs; [|discriminate].
  injection Hs as <-. destruct (handle_event_score _ _ _ Hw Eh) as (_ & Hsc & _).
  destruct (highScore_effect_inv _ (handle_event_inv _ _ _ Hw Eh)) as (_ & -> & _).
  exact Hsc.
Qed.

(** From a reachable world, an event that ends the game is the lock of a
    current pair still at the spawn position (its second cell above the
    board), and it changes nothing but [gameState]: board, score, queue
    and the current pair are kept. *)
Theorem game_over_at_spawn (hs0 : Z) (w w' : World) (e : Event)
    (Hhs : 0 <= hs0) (Hr : reachable hs0 w) (Hs : step w e = Some w')
    (Hbefore : gameState (ui w) <> over) (Hafter : gameState (ui w') = over) :
  exists cur, currentPuyo (ui w) = Some cur /\ at_spawn cur
  /\ w' = set_ui w (set_gameState (ui w) over).
Proof.
  destruct (reachable_inv _ _ Hhs Hr) as [Hw Hle].
  unfold step in Hs. destruct (handle_event w e) as [w1|] eqn:Eh; simpl in Hs; [|discriminate].
  injection Hs as <-.
  destruct (highScore_effect_inv _ (handle_event_inv _ _ _ Hw Eh)) as (_ & Hsc & _).
  destruct (handle_event_score _ _ _ Hw Eh) as (Hh & _ & [Hg|[[_ Hg]|(cur & Hcur & Hlock & ->)]]).
  - exfalso. apply Hbefore. rewrite <- Hg. unfold highScore_effect in Hafter.
    destruct (_ <? _); exact Hafter.
  - exfalso. unfold highScore_effect in Hafter. destruct (_ <? _); simpl in Hafter; congruence.
  - exists cur. split; [exact Hcur|]. split.
    + destruct (inv_current _ Hw cur Hcur) as [H|H]; [congruence|exact H].
    + unfold highScore_effect. simpl. destruct (Z.ltb_spec (highScore w) (score (ui w))); [lia|].
      reflexivity.
Qed.

Lemma lower_ascii_idem (a : Ascii.ascii) : lower_ascii (lower_ascii a) = lower_ascii a.
Proof.
  unfold lower_ascii at 2 3.
  destruct ((65 <=? Ascii.nat_of_ascii a)%nat && (Ascii.nat_of_ascii a <=? 90)%nat) eqn:E.
  - apply andb_true_iff in E as [E1 E2]. apply Nat.leb_le in E1, E2.
    unfold lower_ascii. rewrite Ascii.nat_ascii_embedding by lia.
    replace ((65 <=? Ascii.nat_of_ascii a + 32)%nat && (Ascii.nat_of_ascii a + 32 <=? 90)%nat)
      with false; [reflexivity|].
    symmetry. apply andb_false_iff. right. apply Nat.leb_gt. lia.
  - unfold lower_ascii. now rewrite E.
Qed.

Lemma toLowerCase_idem (s : string) : toLowerCase (toLowerCase s) = toLowerCase s.
Proof. induction s as [|a s IH]; simpl; [reflexivity|]. now rewrite lower_ascii_idem, IH. Qed.

(** Key names are compared after [toLowerCase]: a key and its lower-case
    form have the same effect. *)
Theorem keys_ignore_case (w : World) (key : string) (c1 c2 : Color) :
  handle_event w (KeyDown (toLowerCase key) c1 c2) = handle_event w (KeyDown key c1 c2).
Proof. simpl. unfold handleKeyPress. now rewrite toLowerCase_idem. Qed.

(** Escape (in any case) flips [isPaused] and does nothing else, also
    when the game is not running. *)
Theorem escape_toggles_pause (w : World) (key : string) (c1 c2 : Color)
    (Hk : toLowerCase key = "escape") :
  handle_event w (KeyDown key c1 c2) = Some (with_paused w (negb (isPaused (ui w)))).
Proof.
  simpl. unfold handleKeyPress. rewrite Hk. simpl.
  unfold togglePause, with_paused. destruct (isPaused (ui w)); reflexivity.
Qed.

Lemma escape_toggles_pause_witness :
  toLowerCase "Escape" = "escape"
  /\ handle_event column2_world (KeyDown "Escape" red red)
     = Some (with_paused column2_world (negb (isPaused (ui column2_world)))).
Proof.
  split; [reflexivity|]. apply escape_toggles_pause. reflexivity.
Defined.


(** While paused, or when no game is active, every key other than Escape
    and every tick of the fall interval leaves the world unchanged. *)
Theorem input_ignored_unless_playing (w : World) (key : string) (c1 c2 : Color)
    (Hidle : isPaused (ui w) = true \/ gameState (ui w) <> active)
    (Hk : toLowerCase key <> "escape") :
  handle_event w (KeyDown key c1 c2) = Some w /\ handle_event w (FallTick c1 c2) = Some w.
Proof.
  assert (Hc : can_act (ui w) = false).
  { unfold can_act, is_active. destruct Hidle as [-> | H]; [apply andb_false_r|].
    destruct (gameState (ui w)); [reflexivity|congruence|reflexivity|reflexivity]. }
  simpl. rewrite Hc. split; [|reflexivity].
  unfold handleKeyPress. apply String.eqb_neq in Hk. rewrite Hk.
  destruct (isPaused (ui w)) eqn:Hp; [reflexivity|].
  assert (Hm : forall d f, w_movePuyo w d f = Some w).
  { intros d f. unfold w_movePuyo. destruct (currentPuyo (ui w)); [|reflexivity].
    now rewrite Hc. }
  assert (Hr : forall d, rotatePuyo (ui w) d = ui w).
  { intros d. unfold rotatePuyo. destruct (currentPuyo (ui w)); [|reflexivity].
    now rewrite Hc. }
  assert (Hh : holdPuyo (ui w) (generatePuyoPair c1 c2) = ui w).
  { unfold holdPuyo. destruct (currentPuyo (ui w)); [|reflexivity].
    destruct Hidle as [H|H]; [congruence|].
    destruct (gameState (ui w)); try congruence; simpl; now rewrite orb_true_r. }
  rewrite !Hm, !Hr, Hh, set_ui_ui.
  repeat destruct (String.eqb _ _); reflexivity.
Qed.

Lemma input_ignored_unless_playing_witness :
  (isPaused (ui (init_world 0)) = true \/ gameState (ui (init_world 0)) <> active)
  /\ toLowerCase "S" <> "escape"
  /\ handle_event (init_world 0) (KeyDown "S" red red) = Some (init_world 0)
  /\ handle_event (init_world 0) (FallTick red red) = Some (init_world 0).
Proof.
  assert (H1 : isPaused (ui (init_world 0)) = true \/ gameState (ui (init_world 0)) <> active)
    by (right; discriminate).
  assert (H2 : toLowerCase "S" <> "escape") by discriminate.
  split; [exact H1|]. split; [exact H2|].
  exact (input_ignored_unless_playing (init_world 0) "S" red red H1 H2).
Defined.

(** A waiting chain pass resumes the same way whether or not the game is
    paused: the pause flag neither stops nor changes it. *)
Theorem chain_timer_ignores_pause (w : World) (i : nat) (b : bool) :
  handle_event (with_paused w b) (ChainTimer i)
  = option_map (fun w' => with_paused w' b) (handle_event w (ChainTimer i)).
Proof.
  destruct w as [[g gs sc cur nx cc ip hp ch ic] os gr pd hs]. simpl.
  unfold chain_timer. simpl. destruct (pd !! i) as [c|]; [|reflexivity].
  destruct c as [g' m n|g' n|g' n]; simpl; try reflexivity.
  unfold chain_call. simpl. destruct (findMatches _); simpl; [|reflexivity].
  destruct (0 <? length _)%nat; reflexivity.
Qed.

Lemma reachable_pairs_witness :
  gameState (ui column2_world) <> pause
  /\ (gameState (ui column2_world) <> title ->
      is_Some (currentPuyo (ui column2_world)) /\ length (nextPuyos (ui column2_world)) = 3%nat)
  /\ Forall at_spawn (nextPuyos (ui column2_world)).
Proof. exact (reachable_pairs 0 column2_world ltac:(lia) reachable_column2_world). Defined.

Lemma reachable_score_witness : 0 <= score (ui column2_world) <= highScore column2_world.
Proof. exact (reachable_score 0 column2_world ltac:(lia) reachable_column2_world). Defined.


Lemma step_column2_world : step column2_world ev_drop = Some column2_over.
Proof. vm_compute. reflexivity. Qed.

Lemma score_monotone_witness :
  highScore column2_world <= highScore column2_over
  /\ (score (ui column2_world) <= score (ui column2_over)
      \/ (exists p1 p2 p3 p4, ev_drop = StartClick p1 p2 p3 p4) /\ score (ui column2_over) = 0).
Proof.
  exact (score_monotone 0 column2_world column2_over ev_drop ltac:(lia)
           reachable_column2_world step_column2_world).
Defined.

Lemma game_over_at_spawn_witness :
  gameState (ui column2_world) = active /\ gameState (ui column2_over) = over
  /\ exists cur, currentPuyo (ui column2_world) = Some cur /\ at_spawn cur
     /\ column2_over = set_ui column2_world (set_gameState (ui column2_world) over).
Proof.
  assert (H1 : gameState (ui column2_world) = active) by (vm_compute; reflexivity).
  assert (H2 : gameState (ui column2_over) = over) by (vm_compute; reflexivity).
  split; [exact H1|]. split; [exact H2|].
  apply (game_over_at_spawn 0 column2_world column2_over ev_drop ltac:(lia)
           reachable_column2_world step_column2_world); [rewrite H1; discriminate|exact H2].
Defined.

(** * Matching, locking and drawing *)

(** ** findMatches reports only coloured cells of the board *)


Lemma scan_dir_sound (g : Grid) (c : Color) (visited : list (Z * Z)) (cy cx : Z)
    (acc : list (Z * Z) * list (Z * Z)) (d : Z * Z) :
  Forall (reported_ok g) acc.1 ->
  Forall (reported_ok g) (scan_dir g (Some c) visited cy cx acc d).1.
Proof.
  destruct acc as [group queue]. simpl. intros Hg. unfold scan_dir.
  destruct (0 <=? cy + d.1) eqn:E1, (cy + d.1 <? GRID_ROWS) eqn:E2,
    (0 <=? cx + d.2) eqn:E3, (cx + d.2 <? GRID_COLS) eqn:E4; simpl; try exact Hg.
  destruct (bool_decide_reflect (cell_at g (cy + d.1) (cx + d.2) = Some (Some c))) as [Hc|Hc];
    simpl; [|exact Hg].
  destruct (negb _); simpl; [|exact Hg].
  apply Forall_app_2; [exact Hg|]. constructor; [|constructor].
  apply Z.leb_le in E1, E3. apply Z.ltb_lt in E2, E4.
  repeat split; simpl; try lia. unfold coloured. eauto.
Qed.

Lemma fold_scan_dir_sound (g : Grid) (c : Color) (visited : list (Z * Z)) (cy cx : Z)
    (ds : list (Z * Z)) (acc : list (Z * Z) * list (Z * Z)) :
  Forall (reported_ok g) acc.1 ->
  Forall (reported_ok g) (fold_left (scan_dir g (Some c) visited cy cx) ds acc).1.
Proof.
  revert acc. induction ds as [|d ds IH]; intros acc H; simpl; [exact H|].
  apply IH, scan_dir_sound, H.
Qed.

Lemma bfs_sound (fuel : nat) (g : Grid) (c : Color) (queue visited group res : list (Z * Z)) :
  Forall (reported_ok g) group ->
  bfs fuel g (Some c) queue visited group = Some res -> Forall (reported_ok g) res.
Proof.
  revert queue visited group. induction fuel as [|f IH]; intros queue visited group Hg.
  - destruct queue; simpl; [now intros [= <-]|]. destruct p; discriminate.
  - destruct queue as [|[cy cx] rest]; [simpl; now intros [= <-]|].
    cbn [bfs].
    pose proof (fold_scan_dir_sound g c ((cy, cx) :: visited) cy cx directions (group, rest) Hg)
      as Hf.
    destruct (fold_left _ directions (group, rest)) as [group' queue']. simpl in Hf.
    apply IH, Hf.
Qed.

Lemma scan_order_bounds :
  Forall (fun p : Z * Z => 0 <= p.1 < GRID_ROWS /\ 0 <= p.2 < GRID_COLS) scan_order.
Proof. vm_compute. repeat constructor; discriminate. Qed.

Lemma scan_cells_sound (g : Grid) (cells matches res : list (Z * Z)) :
  Forall (fun p : Z * Z => 0 <= p.1 < GRID_ROWS /\ 0 <= p.2 < GRID_COLS) cells ->
  Forall (reported_ok g) matches -> (matches = [] \/ (4 <= length matches)%nat) ->
  scan_cells g cells matches = Some res ->
  Forall (reported_ok g) res /\ (res = [] \/ (4 <= length res)%nat).
Proof.
  revert matches. induction cells as [|[yy xx] cells IH]; intros matches Hb Hm Hl.
  - simpl. intros [= <-]. auto.
  - intros Hs. apply Forall_cons in Hb as [[Hy Hx] Hb]. simpl in Hy, Hx. cbn [scan_cells] in Hs. unfold match_from in Hs.
    destruct (cell_at g yy xx) as [[c|]|] eqn:Ec; cbn [mbind option_bind] in Hs;
      try (eapply IH; eauto; fail).
    destruct (bfs bfs_fuel g (Some c) [(yy, xx)] [] [(yy, xx)]) as [group|] eqn:Eb;
      cbn [mbind option_bind] in Hs; [|discriminate].
    assert (Hg : Forall (reported_ok g) group).
    { eapply bfs_sound; [|exact Eb]. constructor; [|constructor].
      repeat split; simpl; try lia. unfold coloured. eauto. }
    destruct (4 <=? length group)%nat eqn:E4; cbn [mbind option_bind] in Hs;
      (eapply IH; [exact Hb| | |exact Hs]).
    + apply Forall_app_2; auto.
    + right. rewrite length_app. apply Nat.leb_le in E4. lia.
    + exact Hm.
    + exact Hl.
Qed.

Lemma findMatches_sound_aux (g : Grid) (ms : list (Z * Z)) :
  findMatches g = Some ms ->
  Forall (reported_ok g) ms /\ (ms = [] \/ (4 <= length ms)%nat).
Proof.
  intros H. eapply scan_cells_sound; [apply scan_order_bounds|constructor|left; reflexivity|exact H].
Qed.

(** Every position [findMatches] reports is a coloured cell of the board,
    and the list is empty or has at least four entries. *)
Theorem findMatches_reports_coloured_cells (g : Grid) (ms : list (Z * Z))
    (H : findMatches g = Some ms) :
  Forall (fun p => 0 <= p.1 < GRID_ROWS /\ 0 <= p.2 < GRID_COLS
                   /\ exists c, cell_at g p.1 p.2 = Some (Some c)) ms
  /\ (ms = [] \/ (4 <= length ms)%nat).
Proof. exact (findMatches_sound_aux g ms H). Qed.

(** ** A chain pass removes exactly the distinct matched cells *)

Lemma filter_insert_None (row : list PuyoColor) (c : nat) (col : Color) :
  row !! c = Some (Some col) ->
  (length (List.filter occupied (<[c := None]> row)) + 1 = length (List.filter occupied row))%nat.
Proof.
  revert c. induction row as [|a row IH]; intros c Hc; [discriminate|].
  destruct c as [|c]; simpl in Hc.
  - injection Hc as ->. simpl. lia.
  - change (<[S c:=None]> (a :: row)) with (a :: <[c:=None]> row). specialize (IH c Hc).
    destruct a; cbn [List.filter occupied length]; lia.
Qed.

Lemma count_set_nat_None (g : Grid) (r c : nat) (col : Color) :
  get_nat g r c = Some (Some col) ->
  (count_nonempty (set_nat g r c None) + 1 = count_nonempty g)%nat.
Proof.
  unfold get_nat, set_nat, count_nonempty. revert r.
  induction g as [|row g IH]; intros r Hg; [discriminate|].
  destruct r as [|r]; simpl in Hg.
  - cbn [alter list_alter sum_list_with]. pose proof (filter_insert_None row c col Hg). lia.
  - cbn [alter list_alter sum_list_with]. specialize (IH r Hg). lia.
Qed.

Lemma count_set_cell_None (g : Grid) (yy xx : Z) (col : Color) :
  cell_at g yy xx = Some (Some col) ->
  (count_nonempty (set_cell g yy xx None) + 1 = count_nonempty g)%nat.
Proof.
  rewrite cell_at_get_nat, set_cell_set_nat.
  destruct (_ && _); [apply count_set_nat_None|discriminate].
Qed.


Lemma coloured_in_grid (g : Grid) (p : Z * Z) : coloured g p -> in_grid g p.
Proof. intros [c Hc]. unfold in_grid. rewrite Hc. eauto. Qed.

Lemma count_removeMatchedPuyos_NoDup (g : Grid) (ms : list (Z * Z)) :
  NoDup ms -> Forall (coloured g) ms ->
  (count_nonempty (removeMatchedPuyos g ms) + length ms = count_nonempty g)%nat.
Proof.
  revert g. induction ms as [|[yy xx] ms IH]; intros g Hnd Hc; [simpl; lia|].
  apply NoDup_cons in Hnd as [Hnot Hnd]. apply Forall_cons in Hc as [[col Hp] Hc].
  rewrite removeMatchedPuyos_cons. cbn [length].
  assert (Hin : in_grid g (yy, xx)) by (apply coloured_in_grid; exists col; exact Hp).
  assert (Hc' : Forall (coloured (set_cell g yy xx None)) ms).
  { rewrite Forall_forall in Hc |- *. intros [y' x'] Hm.
    destruct (Hc _ Hm) as [c' Hc']. exists c'. simpl in *.
    rewrite (cell_at_set_cell _ _ _ _ _ _ Hin).
    rewrite decide_False; [exact Hc'|]. intros Heq. apply Hnot. rewrite <- Heq. exact Hm. }
  specialize (IH _ Hnd Hc'). pose proof (count_set_cell_None g yy xx col Hp). lia.
Qed.

Lemma removeMatchedPuyos_remove_dups (g : Grid) (ms : list (Z * Z)) :
  Forall (in_grid g) ms ->
  removeMatchedPuyos g ms = removeMatchedPuyos g (remove_dups ms).
Proof.
  intros Hin.
  assert (Hin' : Forall (in_grid g) (remove_dups ms)).
  { apply Forall_forall. intros p Hp. rewrite Forall_forall in Hin.
    apply Hin, elem_of_remove_dups, Hp. }
  apply grid_ext_cells; [now rewrite !shape_removeMatchedPuyos|].
  intros yy xx.
  rewrite (removeMatchedPuyos_cells _ _ Hin), (removeMatchedPuyos_cells _ _ Hin').
  destruct (bool_decide_reflect ((yy, xx) ∈ ms)) as [H1|H1];
  destruct (bool_decide_reflect ((yy, xx) ∈ remove_dups ms)) as [H2|H2];
  try reflexivity; exfalso.
  - apply H2, elem_of_remove_dups, H1.
  - apply H1, elem_of_remove_dups, H2.
Qed.

Lemma count_applyGravity (g : Grid) (w : nat) :
  rectangular g w -> count_nonempty (applyGravity g) = count_nonempty g.
Proof.
  intros Hr. destruct (applyGravity_columns g w Hr) as (H1 & _ & H3).
  rewrite (count_by_columns _ w H1), (count_by_columns _ w Hr).
  apply sum_list_with_ext. intros c Hc.
  apply elem_of_seq in Hc. rewrite H3 by lia. now rewrite filter_compact.
Qed.

Lemma length_remove_dups (ms : list (Z * Z)) : (length (remove_dups ms) <= length ms)%nat.
Proof.
  induction ms as [|p ms IH]; [reflexivity|]. simpl.
  case_decide; simpl; lia.
Qed.

(** One chain pass on a 12x6 board removes exactly one puyo per distinct
    position [findMatches] reported (entries repeat, the number of
    distinct ones is at most their count), and the gravity step after it
    keeps the number of puyos. *)
Theorem chain_pass_removes_distinct_matches (g : Grid) (ms : list (Z * Z))
    (Hg : grid_ok g) (Hf : findMatches g = Some ms) :
  (count_nonempty (removeMatchedPuyos g ms) + length (remove_dups ms) = count_nonempty g)%nat
  /\ count_nonempty (applyGravity (removeMatchedPuyos g ms))
     = count_nonempty (removeMatchedPuyos g ms)
  /\ (length (remove_dups ms) <= length ms)%nat.
Proof.
  destruct (findMatches_sound_aux g ms Hf) as [Hok _].
  assert (Hc : Forall (coloured g) ms).
  { eapply Forall_impl; [exact Hok|]. intros p (_ & _ & Hp). exact Hp. }
  assert (Hin : Forall (in_grid g) ms).
  { eapply Forall_impl; [exact Hc|]. apply coloured_in_grid. }
  split; [|split].
  - rewrite (removeMatchedPuyos_remove_dups _ _ Hin).
    apply count_removeMatchedPuyos_NoDup; [apply NoDup_remove_dups|].
    apply Forall_forall. intros p Hp. rewrite Forall_forall in Hc.
    apply Hc, elem_of_remove_dups, Hp.
  - destruct (grid_ok_removeMatchedPuyos g ms Hg) as [_ Hr].
    exact (count_applyGravity _ 6 Hr).
  - apply length_remove_dups.
Qed.

(** ** Locking a valid pair adds two puyos to a settled board *)

Lemma filter_insert (row : list PuyoColor) (c : nat) (old v : PuyoColor) :
  row !! c = Some old ->
  (length (List.filter occupied (<[c := v]> row)) + occ_nat old
   = length (List.filter occupied row) + occ_nat v)%nat.
Proof.
  revert c. induction row as [|a row IH]; intros c Hc; [discriminate|].
  destruct c as [|c]; simpl in Hc.
  - injection Hc as ->. change (<[0%nat:=v]> (old :: row)) with (v :: row).
    destruct old, v; cbn [List.filter occupied length occ_nat]; lia.
  - change (<[S c:=v]> (a :: row)) with (a :: <[c:=v]> row). specialize (IH c Hc).
    destruct a; cbn [List.filter occupied length]; lia.
Qed.

Lemma count_set_cell (g : Grid) (yy xx : Z) (old v : PuyoColor) :
  cell_at g yy xx = Some old ->
  (count_nonempty (set_cell g yy xx v) + occ_nat old = count_nonempty g + occ_nat v)%nat.
Proof.
  rewrite cell_at_get_nat, set_cell_set_nat.
  destruct (_ && _); [|discriminate].
  unfold get_nat, set_nat, count_nonempty. generalize (Z.to_nat yy) as r.
  induction g as [|row g IH]; intros r Hg; [discriminate|].
  destruct r as [|r]; simpl in Hg.
  - cbn [alter list_alter sum_list_with].
    pose proof (filter_insert row (Z.to_nat xx) old v Hg). lia.
  - cbn [alter list_alter sum_list_with]. specialize (IH r Hg). lia.
Qed.

Lemma grid_ok_cell (g : Grid) (xx yy : Z) :
  grid_ok g -> in_bounds xx yy = true -> exists v, cell_at g yy xx = Some v.
Proof.
  intros [Hl Hr] Hb. unfold in_bounds, GRID_COLS, GRID_ROWS in Hb.
  apply andb_prop in Hb as [Hb Hy2]. apply andb_prop in Hb as [Hb Hy1].
  apply andb_prop in Hb as [Hx1 Hx2].
  apply Z.leb_le in Hx1, Hy1. apply Z.ltb_lt in Hx2, Hy2.
  rewrite cell_at_get_nat.
  replace ((0 <=? yy) && (0 <=? xx)) with true
    by (symmetry; apply andb_true_intro; split; apply Z.leb_le; lia).
  unfold get_nat.
  destruct (lookup_lt_is_Some_2 g (Z.to_nat yy)) as [row Hrow]; [lia|].
  rewrite Hrow. simpl.
  pose proof (Forall_lookup_1 _ _ _ _ Hr Hrow) as Hw. simpl in Hw.
  destruct (lookup_lt_is_Some_2 row (Z.to_nat xx)) as [v Hv]; [lia|].
  rewrite Hv. eauto.
Qed.

Lemma empty_cell (g : Grid) (xx yy : Z) :
  grid_ok g -> in_bounds xx yy = true -> negb (truthy (cell_at g yy xx)) = true ->
  cell_at g yy xx = Some None.
Proof.
  intros Hg Hb Ht. destruct (grid_ok_cell g xx yy Hg Hb) as [v Hv].
  rewrite Hv in *. destruct v; [discriminate|reflexivity].
Qed.

Lemma applyGravity_idem (g : Grid) (w : nat) :
  rectangular g w -> applyGravity (applyGravity g) = applyGravity g.
Proof.
  intros Hr. destruct (applyGravity_columns g w Hr) as (H1 & H2 & H3).
  destruct (applyGravity_columns _ w H1) as (K1 & K2 & K3).
  apply (grid_ext_columns _ _ w K1 H1 K2).
  intros c Hc. rewrite K3, H3 by exact Hc. apply compact_idem.
Qed.

Lemma second_cell_differs (xx yy r : Z) :
  0 <= r <= 3 -> getSecondPuyoPosition xx yy r <> (xx, yy).
Proof.
  intros Hr. unfold getSecondPuyoPosition.
  destruct (Z.eqb_spec r 0); [intros [=]; lia|].
  destruct (Z.eqb_spec r 1); [intros [=]; lia|].
  destruct (Z.eqb_spec r 2); [intros [=]; lia|].
  destruct (Z.eqb_spec r 3); [intros [=]; lia|]. lia.
Qed.

(** Locking a pair that [isValidMove] accepts, with a rotation in 0..3
    and two colours, on a 12x6 board: the game goes on, the board stays
    12x6 and gains exactly two puyos, and it is settled (gravity would
    not change it). *)
Theorem placePuyo_adds_pair (s : State) (cur fresh : PuyoPair) (c1 c2 : Color)
    (Hcur : currentPuyo s = Some cur) (Hg : grid_ok (grid s))
    (Hv : isValidMove (grid s) cur = true) (Hr : 0 <= rotation cur <= 3)
    (H1 : color1 cur = Some c1) (H2 : color2 cur = Some c2) :
  gameState (placePuyo s fresh) = gameState s
  /\ grid_ok (grid (placePuyo s fresh))
  /\ count_nonempty (grid (placePuyo s fresh)) = (count_nonempty (grid s) + 2)%nat
  /\ applyGravity (grid (placePuyo s fresh)) = grid (placePuyo s fresh).
Proof.
  unfold isValidMove in Hv. unfold placePuyo. rewrite Hcur. unfold lock_in_bounds.
  pose proof (second_cell_differs (x cur) (y cur) (rotation cur) Hr) as Hne.
  destruct (getSecondPuyoPosition (x cur) (y cur) (rotation cur)) as [x2 y2].
  apply andb_prop in Hv as [Hv Ht2]. apply andb_prop in Hv as [Hv Ht1].
  apply andb_prop in Hv as [Hb1 Hb2]. rewrite Hb1, Hb2. cbn [negb andb].
  pose proof (empty_cell _ _ _ Hg Hb1 Ht1) as E1.
  pose proof (empty_cell _ _ _ Hg Hb2 Ht2) as E2.
  set (g1 := set_cell (grid s) (y cur) (x cur) (color1 cur)).
  set (g2 := set_cell g1 y2 x2 (color2 cur)).
  assert (Hg2 : grid_ok g2) by (apply grid_ok_set_cell, grid_ok_set_cell, Hg).
  assert (Hin : in_grid (grid s) (y cur, x cur)) by (unfold in_grid; simpl; rewrite E1; eauto).
  assert (E2' : cell_at g1 y2 x2 = Some None).
  { unfold g1. rewrite (cell_at_set_cell _ _ _ _ _ _ Hin).
    rewrite decide_False; [exact E2|]. intros [=]. apply Hne. f_equal; congruence. }
  pose proof (count_set_cell _ _ _ _ (color1 cur) E1) as K1.
  pose proof (count_set_cell _ _ _ _ (color2 cur) E2') as K2.
  fold g1 in K1. fold g2 in K2. rewrite H1 in K1. rewrite H2 in K2.
  cbn [occ_nat occupied] in K1, K2.
  simpl. split; [reflexivity|]. split; [now apply grid_ok_applyGravity|]. split.
  - rewrite (count_applyGravity _ 6 (proj2 Hg2)). lia.
  - exact (applyGravity_idem _ 6 (proj2 Hg2)).
Qed.

(** ** Drawing the second puyo *)

(** For the rotations 0..3 the CSS offset of the second puyo is 32 pixels
    (the cell size) times the offset of its cell from the first one, so it
    is drawn on the cell [getSecondPuyoPosition] gives. *)
Theorem second_puyo_drawn_at_its_cell (xx yy r : Z) (Hr : 0 <= r <= 3) :
  let '(x2, y2) := getSecondPuyoPosition xx yy r in
  getSecondPuyoStyle r = mkOffset (px (32 * (y2 - yy))) (px (32 * (x2 - xx))).
Proof.
  assert (Hc : r = 0 \/ r = 1 \/ r = 2 \/ r = 3) by lia.
  destruct Hc as [-> | [-> | [-> | ->]]]; unfold getSecondPuyoPosition; simpl.
  - replace (yy - 1 - yy) with (-1) by lia. rewrite Z.sub_diag. reflexivity.
  - replace (xx + 1 - xx) with 1 by lia. rewrite Z.sub_diag. reflexivity.
  - replace (yy + 1 - yy) with 1 by lia. rewrite Z.sub_diag. reflexivity.
  - replace (xx - 1 - xx) with (-1) by lia. rewrite Z.sub_diag. reflexivity.
Qed.

(** Different cell contents get different CSS classes: each colour and
    the empty cell are drawn distinguishably. *)
Theorem getPuyoColorClass_injective (c d : PuyoColor) :
  getPuyoColorClass c = getPuyoColorClass d <-> c = d.
Proof.
  split; [|intros ->; reflexivity].
  destruct c as [[]|], d as [[]|]; vm_compute; congruence.
Qed.

Lemma grid_ok_board_run4 : grid_ok board_run4.
Proof. split; [reflexivity|]. unfold rectangular. vm_compute. repeat constructor. Qed.

Lemma findMatches_reports_coloured_cells_witness :
  exists ms, findMatches board_run4 = Some ms /\ ms <> []
  /\ Forall (fun p => 0 <= p.1 < GRID_ROWS /\ 0 <= p.2 < GRID_COLS
                      /\ exists c, cell_at board_run4 p.1 p.2 = Some (Some c)) ms
  /\ (ms = [] \/ (4 <= length ms)%nat).
Proof.
  exists (default [] (findMatches board_run4)).
  assert (H : findMatches board_run4 = Some (default [] (findMatches board_run4)))
    by (vm_compute; reflexivity).
  split; [exact H|]. split; [vm_compute; discriminate|].
  exact (findMatches_reports_coloured_cells _ _ H).
Defined.

Lemma chain_pass_removes_distinct_matches_witness :
  exists ms, grid_ok board_run4 /\ findMatches board_run4 = Some ms
  /\ (count_nonempty (removeMatchedPuyos board_run4 ms) + length (remove_dups ms)
      = count_nonempty board_run4)%nat
  /\ count_nonempty (applyGravity (removeMatchedPuyos board_run4 ms))
     = count_nonempty (removeMatchedPuyos board_run4 ms)
  /\ (length (remove_dups ms) <= length ms)%nat.
Proof.
  exists (default [] (findMatches board_run4)).
  assert (H : findMatches board_run4 = Some (default [] (findMatches board_run4)))
    by (vm_compute; reflexivity).
  split; [exact grid_ok_board_run4|]. split; [exact H|].
  exact (chain_pass_removes_distinct_matches _ _ grid_ok_board_run4 H).
Defined.

Lemma grid_ok_column2_full : grid_ok column2_full.
Proof. split; [reflexivity|]. unfold rectangular. vm_compute. repeat constructor. Qed.

Lemma placePuyo_adds_pair_witness :
  isValidMove column2_full locking_piece = true
  /\ gameState (placePuyo state_full_column spawn_pair) = active
  /\ grid_ok (grid (placePuyo state_full_column spawn_pair))
  /\ count_nonempty (grid (placePuyo state_full_column spawn_pair)) = 14%nat
  /\ applyGravity (grid (placePuyo state_full_column spawn_pair))
     = grid (placePuyo state_full_column spawn_pair).
Proof.
  assert (Hv : isValidMove column2_full locking_piece = true) by (vm_compute; reflexivity).
  destruct (placePuyo_adds_pair state_full_column locking_piece spawn_pair blue yellow
              eq_refl grid_ok_column2_full Hv ltac:(simpl; lia) eq_refl eq_refl)
    as (H1 & H2 & H3 & H4).
  split; [exact Hv|]. split; [exact H1|]. split; [exact H2|]. split; [|exact H4].
  rewrite H3. vm_compute. reflexivity.
Defined.

Lemma second_puyo_drawn_at_its_cell_witness :
  getSecondPuyoPosition 2 5 1 = (3, 5)
  /\ getSecondPuyoStyle 1 = mkOffset (px (32 * (5 - 5))) (px (32 * (3 - 2))).
Proof.
  split; [reflexivity|].
  exact (second_puyo_drawn_at_its_cell 2 5 1 ltac:(lia)).
Defined.
